(** * pyqsp: phase generators and the QSP response engine

    A shallow embedding of [pyqsp/phases.py] and [pyqsp/response.py].

    - Python exceptions are values of [exn]; a function that can raise
      returns an [outcome].
    - [FPSearch.generate] and [ComputeQSPResponse] only rearrange the
      results of numpy's elementary functions, so they are embedded over an
      abstract float type ([Float64]) and an abstract complex type
      ([Complex128]): what is proved about them holds for IEEE doubles as
      well as for exact reals. A number that the caller passes in is a
      Python float or a numpy float64 ([scalar]); the two differ where
      Python raises ([1 / 0.0], an overflowing [x ** 2]) and numpy returns
      inf.
    - [erf_step.generate] returns literal doubles; they are binary64
      constants here too.
    - [poly2chebyfn] is an elimination whose correctness is algebraic; its
      coefficients are exact reals, with one extra value for the inf/nan
      that numpy produces on a division by zero. Rounding and overflow of
      binary64 are not in this reading, nor is the rounding of scipy's
      tables: what is proved of it is proved in exact arithmetic. *)

From Stdlib Require Import Reals Lra RNsatz.
From Stdlib Require PrimFloat.
From stdpp Require Import base list strings.

Set Warnings "-inexact-float".

(** ** Exceptions and outcomes *)

Inductive exn : Type :=
| ResponseError (msg : string)
| Exception (msg : string)
| IndexError
| ValueError
| ZeroDivisionError
| OverflowError
| UnboundLocalError.

Inductive outcome (A : Type) : Type :=
| Return (v : A)
| Raise (e : exn).

Arguments Return {A} v.
Arguments Raise {A} e.

#[global] Instance outcome_ret : MRet outcome := fun _ v => Return v.

#[global] Instance outcome_bind : MBind outcome := fun _ _ k m =>
  match m with
  | Return v => k v
  | Raise e => Raise e
  end.

(** A Python lookup that raises when the option is empty. *)
Definition or_raise {A : Type} (e : exn) (o : option A) : outcome A :=
  match o with
  | Some v => Return v
  | None => Raise e
  end.

(** ** Sequences indexed the Python way

    [a[i]] and [a[i] = v] on a list or a one-dimensional numpy array:
    a negative index counts from the end, an index outside
    [-len(a), len(a)) raises IndexError. *)

Definition py_index {A : Type} (a : list A) (i : Z) : option nat :=
  let n := Z.of_nat (length a) in
  if bool_decide (0 <= i < n)%Z then Some (Z.to_nat i)
  else if bool_decide (- n <= i < 0)%Z then Some (Z.to_nat (n + i))
  else None.

Definition getitem {A : Type} (a : list A) (i : Z) : outcome A :=
  j ← or_raise IndexError (py_index a i);
  or_raise IndexError (a !! j).

Definition setitem {A : Type} (a : list A) (i : Z) (v : A) : outcome (list A) :=
  j ← or_raise IndexError (py_index a i);
  Return (<[j := v]> a).

(** [for x in xs: body] over a state [S], stopping at the first raise. *)
Fixpoint for_each {X S : Type} (body : X -> S -> outcome S) (xs : list X) (s : S)
  : outcome S :=
  match xs with
  | [] => Return s
  | x :: rest => s' ← body x s; for_each body rest s'
  end.

(** ** numpy's float64, abstractly

    The arithmetic and the elementary functions that [FPSearch.generate]
    and the response engine call. Nothing is assumed about them. *)

Class Float64 (F : Type) : Type := {
  f_of_Z : Z -> F;                (* int operand promoted to float *)
  f_0_1 : F;                      (* the literal 0.1 *)
  fadd : F -> F -> F;
  fsub : F -> F -> F;
  fmul : F -> F -> F;
  fdiv : F -> F -> F;
  fneg : F -> F;
  fpow : F -> Z -> F;             (* x ** n, inf when out of range *)
  f_is_zero : F -> bool;          (* x == 0 *)
  py_pow_overflows : F -> Z -> bool;
                                  (* x ** n is out of range for a finite x *)
  np_pi : F;
  np_sqrt : F -> F;
  np_cosh : F -> F;
  np_arccosh : F -> F;
  np_tan : F -> F;
  np_arctan2 : F -> F -> F
}.

(** ** Numbers passed in by the caller

    A float argument is a Python [float] or a numpy [float64]. Both hold
    a double; they differ in two operations of these files. On a Python
    float, [1 / x] raises ZeroDivisionError when [x] is zero and [x ** n]
    raises OverflowError when the result is out of range; on a numpy
    float64 both give inf with a warning. *)

Inductive scalar (F : Type) : Type :=
| PyFloat (x : F)
| NpFloat64 (x : F).

Arguments PyFloat {F} x.
Arguments NpFloat64 {F} x.

Definition value {F : Type} (s : scalar F) : F :=
  match s with PyFloat x | NpFloat64 x => x end.

Section Scalars.

Context {F : Type} {float64 : Float64 F}.

Definition pow_raises (s : scalar F) (n : Z) : bool :=
  match s with
  | PyFloat x => py_pow_overflows x n
  | NpFloat64 _ => false
  end.

(** [s ** n] *)
Definition py_pow (s : scalar F) (n : Z) : outcome F :=
  if pow_raises s n then Raise OverflowError else Return (fpow (value s) n).

Definition recip_raises (s : scalar F) : bool :=
  match s with
  | PyFloat x => f_is_zero x
  | NpFloat64 _ => false
  end.

(** [1 / s] *)
Definition py_recip (s : scalar F) : outcome F :=
  if recip_raises s then Raise ZeroDivisionError
  else Return (fdiv (f_of_Z 1) (value s)).

End Scalars.

(** ** pyqsp/phases.py *)

Module Phases.

(** *** FPSearch *)

Module FPSearch.

Section Generator.

Context {F : Type} {float64 : Float64 F}.

(** The instance: [verbose] from [PhaseGenerator.__init__]; the attributes
    [avec] and [bvec] do not exist until [generate] assigns them. *)
Record instance : Type := mk_instance {
  verbose : bool;
  avec : option (list F);
  bvec : option (list F)
}.

(** [PhaseGenerator.__init__] *)
Definition init (verbose : bool) : instance :=
  {| verbose := verbose; avec := None; bvec := None |}.

(** Lines 64-68: [gamma] as supplied, or derived from [delta]. The default
    [0.1] is a Python float; a derived [gamma] comes out of numpy. *)
Definition gamma_of (L : Z) (delta gamma : option (scalar F))
  : outcome (scalar F) :=
  match gamma with
  | Some g => Return g
  | None =>
      let delta := default (PyFloat f_0_1) delta in
      q ← py_recip delta;
      Return (NpFloat64
                (fdiv (f_of_Z 1)
                   (np_cosh (fmul (fdiv (f_of_Z 1) (f_of_Z L)) (np_arccosh q)))))
  end.

(** Line 69. *)
Definition sg_of (gamma : scalar F) : outcome F :=
  g2 ← py_pow gamma 2;
  Return (np_sqrt (fsub (f_of_Z 1) g2)).

(** The arguments on which lines 68 and 69 raise nothing: a [gamma]
    whose square does not overflow, or no [gamma] and a [delta] in force
    that [1 / delta] accepts. *)
Definition args_usable (delta gamma : option (scalar F)) : Prop :=
  match gamma with
  | Some g => pow_raises g 2 = false
  | None => recip_raises (default (PyFloat f_0_1) delta) = false
  end.

(** The exception of lines 68-69 on the other arguments: a supplied
    Python-float [gamma] whose square overflows, or a Python-float zero
    [delta] that is divided by. *)
Definition line_68_69_exn (gamma : option (scalar F)) : exn :=
  match gamma with Some _ => OverflowError | None => ZeroDivisionError end.

(** The value of [gamma] after line 68, when nothing was raised. *)
Definition gamma_in_force (L : Z) (delta gamma : option (scalar F)) : F :=
  match gamma with
  | Some g => value g
  | None =>
      fdiv (f_of_Z 1)
        (np_cosh (fmul (fdiv (f_of_Z 1) (f_of_Z L))
                    (np_arccosh
                       (fdiv (f_of_Z 1) (value (default (PyFloat f_0_1) delta))))))
  end.

(** One entry of line 72, for the entry [k] of [kvec]. *)
Definition alpha (L : Z) (sg : F) (k : Z) : F :=
  fmul (f_of_Z 2)
    (np_arctan2 (f_of_Z 1)
       (fmul (np_tan (fdiv (fmul (fmul (f_of_Z 2) np_pi) (f_of_Z k)) (f_of_Z L))) sg)).

(** [np.zeros(n)]: a negative length raises ValueError. *)
Definition np_zeros (n : Z) : outcome (list F) :=
  if bool_decide (n < 0)%Z then Raise ValueError
  else Return (replicate (Z.to_nat n) (f_of_Z 0)).

(** The body of the loop of lines 79-82. *)
Definition assemble_step (d : Z) (avec bvec : list F) (k : Z) (phivec : list F)
  : outcome (list F) :=
  a ← getitem avec (d - k - 1);
  phivec ← setitem phivec (2 * k) (fdiv (fneg a) (f_of_Z 2));
  b ← getitem bvec (d - k - 1);
  setitem phivec (2 * k + 1) (fdiv b (f_of_Z 2)).

(** [FPSearch.generate]: the instance after the call and what the call
    returns or raises. The two [print]s are left out. *)
Definition generate (self : instance) (d : Z) (delta gamma : option (scalar F))
    (return_alpha : bool) : instance * outcome (list F) :=
  let L := (2 * d + 1)%Z in
  let kvec := seqZ 1 d in
  match gamma ← gamma_of L delta gamma; sg_of gamma with
  | Raise e => (self, Raise e)
  | Return sg =>
      let avec := map (alpha L sg) kvec in
      if return_alpha then (self, Return avec)
      else
        let bvec := map fneg (reverse avec) in
        let self := {| verbose := verbose self;
                       avec := Some avec; bvec := Some bvec |} in
        (self,
         phivec ← np_zeros (2 * d);
         for_each (assemble_step d avec bvec) (seqZ 0 d) phivec)
  end.

End Generator.

Arguments instance F : clear implicits.

End FPSearch.

(** *** erf_step *)

Module erf_step.

Import PrimFloat.

(** n=7 poly approximation to erf(1.5 x) *)
Definition phi_n7_erf : list float :=
  [1.58019; 0.00172821; 0.251897; -0.834542; -0.834542; 0.251897;
   0.00172821; 0.00939863]%float.

(** n=23 poly approximation to erf(2 x) *)
Definition phi_n23_erf : list float :=
  [1.5708; 2.87883E-8; 5.83909E-7; 1.84144E-6; 0.0000209995;
   -0.0000120126; 0.000564903; -0.0022922; 0.0150024;
   -0.064666; 0.263754; -0.926685; -0.926912; 0.263756;
   -0.0645576; 0.014932; -0.00225885; 0.000553565;
   -8.29284E-6; 0.0000200459; 2.09476E-6; 5.3026E-7;
   4.38578E-8; 3.66401E-9]%float.

Definition generate (n : Z) : outcome (list float) :=
  if (n =? 7)%Z then Return phi_n7_erf
  else if (n =? 23)%Z then Return phi_n23_erf
  else Raise (Exception "[pyqsp.phases.erf_step] n must be 7 or 23").

End erf_step.

(** *** ExtractionSequence and SqrtSequence

    [PolyExtraction] (pyqsp/poly.py) and [QuantumSignalProcessingPhases]
    (pyqsp/angle_sequence.py) are collaborators outside these two files.
    They are parameters here: each may raise, and each may read and change
    a state [W] of its own (an optimiser's random seed, say). *)

Section Multivariate.

Variables W Poly Phi : Type.
Variable PolyExtraction_generate : Z -> W -> W * outcome Poly.
Variable QuantumSignalProcessingPhases :
  Poly -> string -> string -> W -> W * outcome Phi.

(** [ExtractionSequence.generate] *)
Definition ExtractionSequence_generate (n : Z) (w : W) : W * outcome Phi :=
  match PolyExtraction_generate n w with
  | (w, Raise e) => (w, Raise e)
  | (w, Return Q) => QuantumSignalProcessingPhases Q "Q" "z" w
  end.

(** [SqrtSequence.generate] *)
Definition SqrtSequence_generate (n : Z) (w : W) : W * outcome Phi :=
  match PolyExtraction_generate n w with
  | (w, Raise e) => (w, Raise e)
  | (w, Return Q) => QuantumSignalProcessingPhases Q "Q" "z" w
  end.

End Multivariate.

(** *** poly2chebyfn *)

Open Scope R_scope.

#[global] Instance R_eq_dec : EqDecision R := Req_dec_T.

(** scipy's Chebyshev families. [cheb_pair k n] is the pair of the
    polynomials of degree [n] and [n + 1] of kind [k], as coefficient lists
    from the constant term up, by the three-term recurrence
    [P_(n+2) = 2 x P_(n+1) - P_n]. *)
Inductive cheb_kind : Type := KindT | KindU.

(** [p - q] on coefficient lists of any two lengths. *)
Fixpoint poly_sub (p q : list R) : list R :=
  match p, q with
  | [], _ => map Ropp q
  | _, [] => p
  | a :: p', b :: q' => (a - b) :: poly_sub p' q'
  end.

Fixpoint cheb_pair (k : cheb_kind) (n : nat) : list R * list R :=
  match n with
  | O => ([1], match k with KindT => [0; 1] | KindU => [0; 2] end)
  | S n' =>
      let '(a, b) := cheb_pair k n' in
      (b, poly_sub (0 :: map (Rmult 2) b) a)
  end.

(** [chebyt(n).coef] and [chebyu(n).coef]: highest power first, in exact
    arithmetic. *)
Definition chebyt_coef (n : nat) : list R := reverse (fst (cheb_pair KindT n)).
Definition chebyu_coef (n : nat) : list R := reverse (fst (cheb_pair KindU n)).

(** An entry of the arrays [P] and [C]: a real, or the inf or nan that
    numpy yields (with a warning, not an exception) once a division by zero
    has happened. The Chebyshev tables hold reals only. *)
Inductive npfloat : Type :=
| Fin (r : R)
| NonFin.

(** [r / c]: x/0 is inf or nan. *)
Definition np_div (r : npfloat) (c : R) : npfloat :=
  match r with
  | Fin x => if decide (c = 0) then NonFin else Fin (x / c)
  | NonFin => NonFin
  end.

(** [q * t]: inf*0 is nan. *)
Definition np_scale (q : npfloat) (t : R) : npfloat :=
  match q with
  | Fin x => Fin (x * t)
  | NonFin => NonFin
  end.

Definition np_sub (p q : npfloat) : npfloat :=
  match p, q with
  | Fin x, Fin y => Fin (x - y)
  | _, _ => NonFin
  end.

(** An elementwise operation on two one-dimensional arrays: equal lengths,
    or one of them of length 1 and broadcast, or ValueError. *)
Definition np_broadcast {A B C : Type} (f : A -> B -> C) (a : list A) (b : list B)
  : outcome (list C) :=
  if decide (length a = length b) then Return (zip_with f a b)
  else
    match a, b with
    | _, [y] => Return (map (fun x => f x y) a)
    | [x], _ => Return (map (f x) b)
    | _, _ => Raise ValueError
    end.

(** The body of the loop of lines 155-160, on the pair of [P] and [C].
    [cfunc] is [None] when neither branch of lines 148-151 bound it;
    [deg] is only read when [P] is not empty. *)
Definition sweep_step (cfunc : option (nat -> list R)) (deg : nat) (l : nat)
    (st : list npfloat * list npfloat) : outcome (list npfloat * list npfloat) :=
  let '(P, C) := st in
  r ← or_raise IndexError (P !! l);
  cfunc ← or_raise UnboundLocalError cfunc;
  let poly_term := cfunc l in
  lead ← getitem poly_term (Z.of_nat (length poly_term) - 1);
  let C := C ++ [np_div r lead] in
  P ← np_broadcast np_sub P
        (map (np_scale (np_div r lead)) (cfunc l ++ replicate (deg - l)%nat 0));
  Return (P, C).

(** Lines 153-161 for a given binding of [cfunc]. *)
Definition cheby_sweep (cfunc : option (nat -> list R)) (pcoefs : list npfloat)
  : outcome (list npfloat) :=
  let P := pcoefs in
  let deg := (length P - 1)%nat in
  st ← for_each (sweep_step cfunc deg) (reverse (seq 0 (length P))) (P, []);
  Return (reverse (snd st)).

(** Lines 148-151: the binding of [cfunc], if any. *)
Definition cfunc_of (kind : string) : option (nat -> list R) :=
  if String.eqb kind "T" then Some (fun x => reverse (chebyt_coef x))
  else if String.eqb kind "U" then Some (fun x => reverse (chebyu_coef x))
  else None.

Definition poly2chebyfn (pcoefs : list npfloat) (kind : string)
  : outcome (list npfloat) :=
  cheby_sweep (cfunc_of kind) pcoefs.

(** Lines 146-161 with [chebyt] and [chebyu] as parameters. The two are
    module-level names, bound by the import of line 144, that the lambdas
    of lines 149 and 151 look up each time they are called; [chebyt n]
    stands for [chebyt(n).coef], highest power first. *)
Definition cfunc_with (chebyt chebyu : nat -> list R) (kind : string)
  : option (nat -> list R) :=
  if String.eqb kind "T" then Some (fun x => reverse (chebyt x))
  else if String.eqb kind "U" then Some (fun x => reverse (chebyu x))
  else None.

Definition poly2chebyfn_with (chebyt chebyu : nat -> list R)
    (pcoefs : list npfloat) (kind : string) : outcome (list npfloat) :=
  cheby_sweep (cfunc_with chebyt chebyu kind) pcoefs.

(** The divisor of line 159 at degree [l]:
    [poly_term[len(poly_term)-1]]. *)
Definition divisor (cfunc : nat -> list R) (l : nat) : outcome R :=
  let poly_term := cfunc l in
  getitem poly_term (Z.of_nat (length poly_term) - 1).

(** The binding of [cfunc] for each of the two kinds. *)
Definition table (k : cheb_kind) : nat -> list R :=
  match k with
  | KindT => fun x => reverse (chebyt_coef x)
  | KindU => fun x => reverse (chebyu_coef x)
  end.

(** The tag that selects a family. *)
Definition kind_tag (k : cheb_kind) : string :=
  match k with KindT => "T" | KindU => "U" end.

(** What the conversion is measured against: the value at [x] of a
    polynomial given by its coefficients from the constant term up, the
    value [T_n(x)] or [U_n(x)] by the recurrence on values, and the value
    of a series [sum_l c_l * basis_l(x)] whose first coefficient belongs to
    the basis element [l]. *)
Fixpoint peval (p : list R) (x : R) : R :=
  match p with
  | [] => 0
  | a :: p' => a + x * peval p' x
  end.

Fixpoint cheb_val_pair (k : cheb_kind) (n : nat) (x : R) : R * R :=
  match n with
  | O => (1, match k with KindT => x | KindU => 2 * x end)
  | S n' =>
      let '(a, b) := cheb_val_pair k n' x in
      (b, 2 * x * b - a)
  end.

Definition chebyshev (k : cheb_kind) (n : nat) (x : R) : R :=
  fst (cheb_val_pair k n x).

Fixpoint series (basis : nat -> R -> R) (l : nat) (cs : list R) (x : R) : R :=
  match cs with
  | [] => 0
  | c :: cs' => c * basis l x + series basis (S l) cs' x
  end.

Definition cheb_series (k : cheb_kind) (cs : list R) (x : R) : R :=
  series (chebyshev k) 0 cs x.

(** The other direction, for comparison: the power-basis coefficients of
    [sum_j c_j * P_(l+j)], where [cf j] holds the coefficients of [P_j]
    from the constant term up. *)
Fixpoint poly_add (p q : list R) : list R :=
  match p, q with
  | [], _ => q
  | _, [] => p
  | a :: p', b :: q' => (a + b) :: poly_add p' q'
  end.

Fixpoint cheby2poly_from (cf : nat -> list R) (l : nat) (cs : list R) : list R :=
  match cs with
  | [] => []
  | c :: cs' => poly_add (map (Rmult c) (cf l)) (cheby2poly_from cf (S l) cs')
  end.

Definition cheby2poly (k : cheb_kind) (cs : list R) : list R :=
  cheby2poly_from (table k) 0 cs.

(** *** B and C (lines 130-136)

    On a real argument. [np.sqrt] of a negative number is nan, and a
    division by zero is inf; both are [NonFin]. *)

Module Sqrt.

Definition np_sqrt_real (x : R) : npfloat :=
  if Rlt_dec x 0 then NonFin else Fin (R_sqrt.sqrt x).

(** [1 / s] where [s] came out of [np.sqrt]: a finite number or nan. *)
Definition np_recip (s : npfloat) : npfloat :=
  match s with
  | Fin c => np_div (Fin 1) c
  | NonFin => NonFin
  end.

(** The half-angle function *)
Definition B (x : R) : npfloat :=
  match np_sqrt_real ((1 + x) / 2) with
  | Fin u => np_sqrt_real (0.5 + 0.5 * u)
  | NonFin => NonFin
  end.

(** The other half-angle function *)
Definition C (x : R) : npfloat :=
  let t1 := np_recip (np_sqrt_real (1 + x)) in
  let t2 :=
    match np_sqrt_real ((1 + x) / 2) with
    | Fin u => np_recip (np_sqrt_real (1 + u))
    | NonFin => NonFin
    end in
  match t1, t2 with
  | Fin y1, Fin y2 => Fin (0.5 * y1 * y2)
  | _, _ => NonFin
  end.

End Sqrt.

Close Scope R_scope.

End Phases.

(** ** numpy's complex128, abstractly *)

Class Complex128 (F C : Type) : Type := {
  c_of_float : F -> C;            (* float promoted to complex *)
  c_1j : C;                       (* the literal 1j *)
  cadd : C -> C -> C;
  cmul : C -> C -> C;
  cneg : C -> C;
  np_exp : C -> C
}.

(** ** pyqsp/response.py *)

Module Response.

(** A 2x2 array, by rows. *)
Record mat2 (A : Type) : Type := Mat2 { m00 : A; m01 : A; m10 : A; m11 : A }.
Arguments Mat2 {A} _ _ _ _.
Arguments m00 {A} _.
Arguments m01 {A} _.
Arguments m10 {A} _.
Arguments m11 {A} _.

(** A 2x1 array (column) and a 1x2 array (row). *)
Record col2 (A : Type) : Type := Col2 { c0 : A; c1 : A }.
Record row2 (A : Type) : Type := Row2 { r0 : A; r1 : A }.
Arguments Col2 {A} _ _.
Arguments c0 {A} _.
Arguments c1 {A} _.
Arguments Row2 {A} _ _.
Arguments r0 {A} _.
Arguments r1 {A} _.

Section Response.

Context {F C : Type} {float64 : Float64 F} {complex128 : Complex128 F C}.

(** A float array promoted to complex, as [@] does when the other operand
    is complex. *)
Definition promote (M : mat2 F) : mat2 C :=
  Mat2 (c_of_float (m00 M)) (c_of_float (m01 M))
       (c_of_float (m10 M)) (c_of_float (m11 M)).

(** [A @ B] on 2x2 arrays. *)
Definition matmul (A B : mat2 C) : mat2 C :=
  Mat2 (cadd (cmul (m00 A) (m00 B)) (cmul (m01 A) (m10 B)))
       (cadd (cmul (m00 A) (m01 B)) (cmul (m01 A) (m11 B)))
       (cadd (cmul (m10 A) (m00 B)) (cmul (m11 A) (m10 B)))
       (cadd (cmul (m10 A) (m01 B)) (cmul (m11 A) (m11 B))).

(** [p.T]: the transpose of a column, with no conjugation. *)
Definition transpose (p : col2 F) : row2 F := Row2 (c0 p) (c1 p).

(** [r @ U] for a float row [r], and [r @ p] for a float column [p]; the
    latter is the single entry [[0, 0]] of the 1x1 product. *)
Definition row_matmul (r : row2 F) (U : mat2 C) : row2 C :=
  Row2 (cadd (cmul (c_of_float (r0 r)) (m00 U)) (cmul (c_of_float (r1 r)) (m10 U)))
       (cadd (cmul (c_of_float (r0 r)) (m01 U)) (cmul (c_of_float (r1 r)) (m11 U))).

Definition row_col (r : row2 C) (p : col2 F) : C :=
  cadd (cmul (r0 r) (c_of_float (c0 p))) (cmul (r1 r) (c_of_float (c1 p))).

(** The array of lines 39-40 (and 49-50) for a sample [a], given
    [a2 = a**2]. *)
Definition sig_array (a a2 : F) : mat2 C :=
  let s := cmul c_1j (c_of_float (np_sqrt (fsub (f_of_Z 1) a2))) in
  Mat2 (c_of_float a) s s (c_of_float a).

(** Lines 38-44: the Wx operators. [a**2] is where [sig_op] can raise. *)
Definition sig_op_Wx (a : scalar F) : outcome (mat2 C) :=
  a2 ← py_pow a 2;
  Return (sig_array (value a) a2).

Definition qsp_op_Wx (phi : F) : mat2 C :=
  Mat2 (np_exp (cmul c_1j (c_of_float phi))) (c_of_float (f_of_Z 0))
       (c_of_float (f_of_Z 0)) (np_exp (cmul (cneg c_1j) (c_of_float phi))).

(** Lines 46-54: the Wz operators. *)
Definition H : mat2 F :=
  let s := np_sqrt (f_of_Z 2) in
  Mat2 (fdiv (f_of_Z 1) s) (fdiv (f_of_Z 1) s)
       (fdiv (f_of_Z 1) s) (fdiv (f_of_Z (-1)) s).

Definition sig_op_Wz (a : scalar F) : outcome (mat2 C) :=
  a2 ← py_pow a 2;
  Return (matmul (matmul (promote H) (sig_array (value a) a2)) (promote H)).

Definition qsp_op_Wz (phi : F) : mat2 C :=
  matmul (matmul (promote H) (qsp_op_Wx phi)) (promote H).

(** Lines 61 and 63: the measurement states. *)
Definition p_state_x : col2 F :=
  let s := np_sqrt (f_of_Z 2) in Col2 (fdiv (f_of_Z 1) s) (fdiv (f_of_Z 1) s).

Definition p_state_z : col2 F := Col2 (f_of_Z 1) (f_of_Z 0).

(** What lines 29-67 settle: the model pair, the two operators and the
    measurement state. *)
Record config : Type := Config {
  model : string * string;
  sig_op : scalar F -> outcome (mat2 C);
  qsp_op : F -> mat2 C;
  p_state : col2 F
}.

(** Lines 29-33. *)
Definition default_measurement (signal_operator : string)
    (measurement : option string) : option string :=
  match measurement with
  | None =>
      if String.eqb signal_operator "Wx" then Some "x"
      else if String.eqb signal_operator "Wz" then Some "z"
      else None
  | Some m => Some m
  end.

(** [str.format] of a measurement. *)
Definition format_measurement (measurement : option string) : string :=
  match measurement with
  | Some m => m
  | None => "None"
  end.

(** Lines 29-67. *)
Definition configure (signal_operator : string) (measurement : option string)
  : outcome config :=
  let measurement := default_measurement signal_operator measurement in
  ops ←
    (if String.eqb signal_operator "Wx" then Return (sig_op_Wx, qsp_op_Wx)
     else if String.eqb signal_operator "Wz" then Return (sig_op_Wz, qsp_op_Wz)
     else Raise (ResponseError ("Invalid signal_operator: " ++ signal_operator)));
  let invalid :=
    Raise (ResponseError ("Invalid measurement: " ++ format_measurement measurement)) in
  match measurement with
  | Some m =>
      if String.eqb m "x" then
        Return (Config (signal_operator, m) (fst ops) (snd ops) p_state_x)
      else if String.eqb m "z" then
        Return (Config (signal_operator, m) (fst ops) (snd ops) p_state_z)
      else invalid
  | None => invalid
  end.

(** Lines 75-79 for one sample: [U], then the response value. *)
Definition qsp_unitary (cfg : config) (pmats : list (mat2 C)) (a : scalar F)
  : outcome (mat2 C) :=
  W ← sig_op cfg a;
  U ← getitem pmats 0;
  Return (foldl (fun U pm => matmul (matmul U W) pm) U (drop 1 pmats)).

Definition response_value (cfg : config) (U : mat2 C) : C :=
  row_col (row_matmul (transpose (p_state cfg)) U) (p_state cfg).

(** The loop of lines 74-79 over [adat]: [pdat] when the loop ends, and
    the exception that ended it, if any. *)
Fixpoint sample_loop (cfg : config) (pmats : list (mat2 C))
    (adat : list (scalar F)) (pdat : list C) : list C * option exn :=
  match adat with
  | [] => (pdat, None)
  | a :: rest =>
      match qsp_unitary cfg pmats a with
      | Raise e => (pdat, Some e)
      | Return U => sample_loop cfg pmats rest (pdat ++ [response_value cfg U])
      end
  end.

(** The returned dict. *)
Record dataset : Type := Dataset {
  ret_adat : list (scalar F);
  ret_pdat : list C;
  ret_model : string * string;
  ret_phiset : list F
}.

(** A call either returns the dict or raises; with the exception comes
    the local [pdat] as it was when the exception left the function. *)
Inductive result : Type :=
| Returned (ret : dataset)
| Raised (e : exn) (pdat : list C).

Definition ComputeQSPResponse (adat : list (scalar F)) (phiset : list F)
    (signal_operator : string) (measurement : option string) : result :=
  let pdat := [] in
  match configure signal_operator measurement with
  | Raise e => Raised e pdat
  | Return cfg =>
      let pmats := map (qsp_op cfg) phiset in
      match sample_loop cfg pmats adat pdat with
      | (pdat, Some e) => Raised e pdat
      | (pdat, None) => Returned (Dataset adat pdat (model cfg) phiset)
      end
  end.

(** The configurations that lines 29-67 accept. *)
Definition valid_config (signal_operator : string) (measurement : option string)
  : Prop :=
  (signal_operator = "Wx" \/ signal_operator = "Wz") /\
  (measurement = None \/ measurement = Some "x" \/ measurement = Some "z").

(** The samples on which [sig_op] raises nothing: every numpy float64,
    and the Python floats whose square is in range. *)
Definition sample_ok (a : scalar F) : Prop := pow_raises a 2 = false.

(** The product [U] written out as a word: the factors in order, and
    their product taken from the left, as [@] associates. The signal
    factor stands for the array [W = sig_op(a)] of the sample at hand. *)
Inductive factor : Type :=
| PhaseFactor (phi : F)
| SignalFactor.

Definition is_phase (f : factor) : bool :=
  match f with PhaseFactor _ => true | SignalFactor => false end.

Definition is_signal (f : factor) : bool :=
  match f with PhaseFactor _ => false | SignalFactor => true end.

Definition denote (cfg : config) (W : mat2 C) (f : factor) : mat2 C :=
  match f with
  | PhaseFactor phi => qsp_op cfg phi
  | SignalFactor => W
  end.

Definition qsp_word (phiset : list F) : list factor :=
  match phiset with
  | [] => []
  | phi0 :: rest =>
      PhaseFactor phi0 :: flat_map (fun phi => [SignalFactor; PhaseFactor phi]) rest
  end.

Definition ordered_product (Ms : list (mat2 C)) : option (mat2 C) :=
  match Ms with
  | [] => None
  | M0 :: rest => Some (foldl matmul M0 rest)
  end.

End Response.

Arguments config F C : clear implicits.
Arguments dataset F C : clear implicits.
Arguments result F C : clear implicits.
Arguments factor F : clear implicits.

End Response.

(** ** The exact-real reading of the two interfaces

    Floats read as reals and complex numbers as pairs of reals. In
    [R_float64] the range is unbounded as well as the precision, so nothing
    overflows: this is exact arithmetic. [R_float64_ranged] differs in one
    point: a Python [x ** n] raises when the power is beyond the range of
    binary64. *)

Module RealModel.

Open Scope R_scope.

Definition arccosh (x : R) : R := ln (x + sqrt (x * x - 1)).

Definition arctan2 (y x : R) : R :=
  if Rlt_dec 0 x then atan (y / x)
  else if Rlt_dec x 0 then
    (if Rle_dec 0 y then atan (y / x) + PI else atan (y / x) - PI)
  else if Rlt_dec 0 y then PI / 2
  else if Rlt_dec y 0 then - (PI / 2)
  else 0.

#[global] Instance R_float64 : Float64 R := {|
  f_of_Z := IZR;
  f_0_1 := 0.1;
  fadd := Rplus;
  fsub := Rminus;
  fmul := Rmult;
  fdiv := Rdiv;
  fneg := Ropp;
  fpow := powerRZ;
  f_is_zero := fun x => bool_decide (x = 0);
  py_pow_overflows := fun _ _ => false;
  np_pi := PI;
  np_sqrt := sqrt;
  np_cosh := cosh;
  np_arccosh := arccosh;
  np_tan := tan;
  np_arctan2 := arctan2
|}.

(** The least magnitude that rounds to inf in binary64: halfway between
    the largest double and [2^1024]. *)
Definition binary64_overflow : Z := (2 ^ 1024 - 2 ^ 970)%Z.

Definition R_float64_ranged : Float64 R := {|
  f_of_Z := IZR;
  f_0_1 := 0.1;
  fadd := Rplus;
  fsub := Rminus;
  fmul := Rmult;
  fdiv := Rdiv;
  fneg := Ropp;
  fpow := powerRZ;
  f_is_zero := fun x => bool_decide (x = 0);
  py_pow_overflows :=
    fun x n =>
      if Rle_dec (IZR binary64_overflow) (Rabs (powerRZ x n)) then true else false;
  np_pi := PI;
  np_sqrt := sqrt;
  np_cosh := cosh;
  np_arccosh := arccosh;
  np_tan := tan;
  np_arctan2 := arctan2
|}.

#[global] Instance R_complex128 : Complex128 R (R * R) := {|
  c_of_float := fun x => (x, 0);
  c_1j := (0, 1);
  cadd := fun z w => (z.1 + w.1, z.2 + w.2);
  cmul := fun z w => (z.1 * w.1 - z.2 * w.2, z.1 * w.2 + z.2 * w.1);
  cneg := fun z => (- z.1, - z.2);
  np_exp := fun z => (exp z.1 * cos z.2, exp z.1 * sin z.2)
|}.

(** Conjugate transpose, identity and unitarity of a 2x2 complex array,
    to state what the product [U] is. *)
Definition cconj (z : R * R) : R * R := (z.1, - z.2).

Definition dagger (M : Response.mat2 (R * R)) : Response.mat2 (R * R) :=
  Response.Mat2 (cconj (Response.m00 M)) (cconj (Response.m10 M))
                (cconj (Response.m01 M)) (cconj (Response.m11 M)).

Definition mat_one : Response.mat2 (R * R) :=
  Response.Mat2 (1, 0) (0, 0) (0, 0) (1, 0).

Definition unitary (M : Response.mat2 (R * R)) : Prop :=
  Response.matmul M (dagger M) = mat_one.

Close Scope R_scope.

End RealModel.

(** * Facts *)

(** ** Python indexing *)

Lemma getitem_nonneg {A : Type} (a : list A) (i : Z) (x : A) :
  (0 <= i)%Z -> a !! Z.to_nat i = Some x -> getitem a i = Return x.
Proof.
  intros Hi Hx. unfold getitem, py_index.
  apply lookup_lt_Some in Hx as Hlt.
  rewrite bool_decide_eq_true_2 by lia.
  cbn. rewrite Hx. reflexivity.
Qed.

Lemma setitem_nonneg {A : Type} (a : list A) (i : Z) (v : A) :
  (0 <= i < Z.of_nat (length a))%Z ->
  setitem a i v = Return (<[Z.to_nat i := v]> a).
Proof.
  intros Hi. unfold setitem, py_index.
  rewrite bool_decide_eq_true_2 by lia. reflexivity.
Qed.

Lemma getitem_empty {A : Type} (i : Z) : getitem (@nil A) i = Raise IndexError.
Proof.
  unfold getitem, py_index. cbn.
  repeat case_bool_decide; try lia. reflexivity.
Qed.

(** ** FPSearch *)

Module FPSearchFacts.

Import Phases.FPSearch.

Section Facts.

Context {F : Type} {float64 : Float64 F}.

Implicit Types (d k j : Z) (av bv phi : list F).

(** Lines 64-69 on usable arguments: nothing is raised, and [sg] is
    computed from the [gamma] in force. *)
Lemma sg_usable (L : Z) (delta gamma : option (scalar F)) :
  args_usable delta gamma ->
  (g ← gamma_of L delta gamma; sg_of g) =
    Return (np_sqrt (fsub (f_of_Z 1) (fpow (gamma_in_force L delta gamma) 2))).
Proof.
  intros Hu. unfold gamma_of, sg_of, py_pow, py_recip, args_usable, gamma_in_force in *.
  destruct gamma as [g|].
  - cbn. rewrite Hu. reflexivity.
  - rewrite Hu. reflexivity.
Qed.

Lemma sg_unusable (L : Z) (delta gamma : option (scalar F)) :
  ~ args_usable delta gamma ->
  (g ← gamma_of L delta gamma; sg_of g) = Raise (line_68_69_exn gamma).
Proof.
  intros Hu. unfold gamma_of, sg_of, py_pow, py_recip, args_usable in *.
  destruct gamma as [g|]; cbn [mbind outcome_bind line_68_69_exn].
  - destruct (pow_raises g 2); [reflexivity | contradiction].
  - destruct (recip_raises _); [reflexivity | contradiction].
Qed.

Lemma args_usable_dec (delta gamma : option (scalar F)) :
  {args_usable delta gamma} + {~ args_usable delta gamma}.
Proof.
  unfold args_usable. destruct gamma as [g|].
  - destruct (pow_raises g 2); [right; discriminate | left; reflexivity].
  - destruct (recip_raises _); [right; discriminate | left; reflexivity].
Qed.

Lemma assemble_step_ok d av bv k phi (a b : F) :
  (0 <= k < d)%Z ->
  length phi = Z.to_nat (2 * d) ->
  av !! Z.to_nat (d - k - 1) = Some a ->
  bv !! Z.to_nat (d - k - 1) = Some b ->
  assemble_step d av bv k phi =
    Return (<[Z.to_nat (2 * k + 1) := fdiv b (f_of_Z 2)]>
              (<[Z.to_nat (2 * k) := fdiv (fneg a) (f_of_Z 2)]> phi)).
Proof.
  intros Hk Hphi Ha Hb. unfold assemble_step.
  rewrite (getitem_nonneg av _ a) by (lia || assumption). cbn.
  rewrite setitem_nonneg by lia. cbn.
  rewrite (getitem_nonneg bv _ b) by (lia || assumption). cbn.
  rewrite setitem_nonneg by (rewrite length_insert; lia).
  reflexivity.
Qed.

(** The loop of lines 79-82, run over [k = j, ..., j + n - 1]: it ends,
    keeps the length, leaves the entries below [2 j] alone and fills the
    entries [2 k] and [2 k + 1]. *)
Lemma assemble_loop d av bv (n : nat) : forall j phi,
  (0 <= j)%Z -> (j + Z.of_nat n <= d)%Z ->
  length av = Z.to_nat d -> length bv = Z.to_nat d ->
  length phi = Z.to_nat (2 * d) ->
  exists phi',
    for_each (assemble_step d av bv) (seqZ j (Z.of_nat n)) phi = Return phi' /\
    length phi' = Z.to_nat (2 * d) /\
    (forall i : nat, (i < Z.to_nat (2 * j))%nat -> phi' !! i = phi !! i) /\
    (forall k a b, (j <= k < j + Z.of_nat n)%Z ->
       av !! Z.to_nat (d - k - 1) = Some a ->
       bv !! Z.to_nat (d - k - 1) = Some b ->
       phi' !! Z.to_nat (2 * k) = Some (fdiv (fneg a) (f_of_Z 2)) /\
       phi' !! Z.to_nat (2 * k + 1) = Some (fdiv b (f_of_Z 2))).
Proof.
  induction n as [|n IH]; intros j phi Hj Hn Hav Hbv Hphi.
  - exists phi. cbn. repeat split; try done; intros; lia.
  - rewrite seqZ_cons by lia. cbn [for_each].
    destruct (lookup_lt_is_Some_2 av (Z.to_nat (d - j - 1))) as [a Ha]; [lia|].
    destruct (lookup_lt_is_Some_2 bv (Z.to_nat (d - j - 1))) as [b Hb]; [lia|].
    rewrite (assemble_step_ok d av bv j phi a b) by (lia || assumption). cbn.
    set (phi1 := <[Z.to_nat (2 * j + 1) := _]> _).
    assert (Hphi1 : length phi1 = Z.to_nat (2 * d))
      by (unfold phi1; rewrite !length_insert; exact Hphi).
    replace (Z.pred (Z.of_nat (S n))) with (Z.of_nat n) by lia.
    destruct (IH (Z.succ j) phi1) as (phi' & Hrun & Hlen & Hlow & Hfill);
      try (lia || assumption).
    exists phi'. split; [exact Hrun|]. split; [exact Hlen|]. split.
    + intros i Hi. rewrite Hlow by lia. unfold phi1.
      rewrite !list_lookup_insert_ne by lia. reflexivity.
    + intros k a' b' Hk Ha' Hb'.
      destruct (decide (k = j)) as [->|Hne].
      * rewrite Ha in Ha'. rewrite Hb in Hb'. simplify_eq.
        rewrite !Hlow by lia. unfold phi1. split.
        -- rewrite list_lookup_insert_ne by lia.
           apply list_lookup_insert_eq. lia.
        -- apply list_lookup_insert_eq. rewrite length_insert. lia.
      * apply Hfill; (lia || assumption).
Qed.

Lemma avec_lookup (L : Z) (sg : F) d k :
  (1 <= k <= d)%Z ->
  map (alpha L sg) (seqZ 1 d) !! Z.to_nat (k - 1) = Some (alpha L sg k).
Proof.
  intros Hk. rewrite list_lookup_fmap.
  rewrite (lookup_seqZ_lt 1 d (Z.to_nat (k - 1))) by lia.
  cbn. f_equal. f_equal. lia.
Qed.

Lemma bvec_lookup av (i : nat) (x : F) :
  (i < length av)%nat ->
  av !! (length av - 1 - i)%nat = Some x ->
  map fneg (reverse av) !! i = Some (fneg x).
Proof.
  intros Hi Hx. rewrite list_lookup_fmap, reverse_lookup by exact Hi.
  replace (length av - S i)%nat with (length av - 1 - i)%nat by lia.
  rewrite Hx. reflexivity.
Qed.


(** C3, as the code has it. For a positive integer [d] and arguments on
    which lines 68-69 raise nothing ([args_usable]), a call of
    [FPSearch.generate] that does not ask for alpha returns a phase vector
    of length [2 d]; the vectors [avec] and [bvec] it leaves in the
    instance have length [d] and satisfy [bvec[i] = -avec[d-1-i]]; and for
    [k = 0 .. d-1] the result has [phi[2k] = -avec[d-k-1]/2] and
    [phi[2k+1] = bvec[d-k-1]/2]. *)
Theorem generate_length_and_interleaving (self : instance F) d
    (delta gamma : option (scalar F)) :
  (0 < d)%Z ->
  args_usable delta gamma ->
  exists av bv phi,
    generate self d delta gamma false =
      ({| verbose := verbose self; avec := Some av; bvec := Some bv |},
       Return phi) /\
    length phi = Z.to_nat (2 * d) /\
    length av = Z.to_nat d /\
    length bv = Z.to_nat d /\
    (forall i, (0 <= i < d)%Z ->
       exists x, av !! Z.to_nat (d - 1 - i) = Some x /\
                 bv !! Z.to_nat i = Some (fneg x)) /\
    (forall k, (0 <= k < d)%Z ->
       exists a b,
         av !! Z.to_nat (d - k - 1) = Some a /\
         bv !! Z.to_nat (d - k - 1) = Some b /\
         phi !! Z.to_nat (2 * k) = Some (fdiv (fneg a) (f_of_Z 2)) /\
         phi !! Z.to_nat (2 * k + 1) = Some (fdiv b (f_of_Z 2))).
Proof.
  intros Hd Hu. unfold generate.
  rewrite (sg_usable _ _ _ Hu).
  set (sg := np_sqrt _).
  set (av := map (alpha (2 * d + 1) sg) (seqZ 1 d)).
  set (bv := map fneg (reverse av)).
  assert (Hav : length av = Z.to_nat d)
    by (unfold av; rewrite length_map, length_seqZ; lia).
  assert (Hbv : length bv = Z.to_nat d)
    by (unfold bv; rewrite length_map, length_reverse; exact Hav).
  unfold np_zeros. rewrite bool_decide_eq_false_2 by lia. cbn [mbind outcome_bind].
  destruct (assemble_loop d av bv (Z.to_nat d) 0 (replicate (Z.to_nat (2 * d)) (f_of_Z 0)))
    as (phi & Hrun & Hlen & _ & Hfill);
    try (lia || assumption); [apply length_replicate|].
  rewrite Z2Nat.id in Hrun by lia.
  exists av, bv, phi. rewrite Hrun.
  split; [reflexivity|]. split; [exact Hlen|].
  split; [exact Hav|]. split; [exact Hbv|]. split.
  - intros i Hi.
    destruct (lookup_lt_is_Some_2 av (Z.to_nat (d - 1 - i))) as [x Hx]; [lia|].
    exists x. split; [exact Hx|].
    apply bvec_lookup; [lia|].
    replace (length av - 1 - Z.to_nat i)%nat with (Z.to_nat (d - 1 - i)) by lia.
    exact Hx.
  - intros k Hk.
    destruct (lookup_lt_is_Some_2 av (Z.to_nat (d - k - 1))) as [a Ha]; [lia|].
    destruct (lookup_lt_is_Some_2 bv (Z.to_nat (d - k - 1))) as [b Hb]; [lia|].
    exists a, b. split; [exact Ha|]. split; [exact Hb|].
    apply Hfill; (lia || assumption).
Qed.

(** C4. When [gamma] is not supplied, the construction runs on
    [gamma = 1 / cosh((1/(2d+1)) * arccosh(1/delta))], with [delta = 0.1]
    when [delta] is not supplied either; when it is supplied, on that
    [gamma]. For [k = 1 .. d] the angle [avec[k-1]] is
    [2 * arctan2(1, tan(2 pi k / (2d+1)) * sqrt(1 - gamma^2))], and [bvec]
    is [avec] reversed and negated. ([avec] is what the call returns when
    asked for alpha, and what it stores otherwise.) The only calls on which
    these values are not computed are those on which the formulas themselves
    raise at lines 68-69: [1/delta] on a Python-float zero, [gamma**2] on a
    supplied Python float whose square overflows. *)
Theorem generate_gamma_and_angles (self : instance F) d
    (delta gamma : option (scalar F)) :
  let L := (2 * d + 1)%Z in
  let delta' := match delta with Some x => value x | None => f_0_1 end in
  let derived :=
    fdiv (f_of_Z 1)
      (np_cosh (fmul (fdiv (f_of_Z 1) (f_of_Z L))
                  (np_arccosh (fdiv (f_of_Z 1) delta')))) in
  let gamma' := match gamma with Some g => value g | None => derived end in
  (args_usable delta gamma /\
   exists av,
     generate self d delta gamma true = (self, Return av) /\
     fst (generate self d delta gamma false) =
       {| verbose := verbose self; avec := Some av;
          bvec := Some (map fneg (reverse av)) |} /\
     length av = Z.to_nat d /\
     forall k, (1 <= k <= d)%Z ->
       av !! Z.to_nat (k - 1) =
         Some (fmul (f_of_Z 2)
                 (np_arctan2 (f_of_Z 1)
                    (fmul (np_tan (fdiv (fmul (fmul (f_of_Z 2) np_pi) (f_of_Z k))
                                     (f_of_Z L)))
                       (np_sqrt (fsub (f_of_Z 1) (fpow gamma' 2))))))) \/
  (~ args_usable delta gamma /\
   forall return_alpha : bool,
     generate self d delta gamma return_alpha =
       (self, Raise (line_68_69_exn gamma))).
Proof.
  intros L delta' derived gamma'.
  destruct (args_usable_dec delta gamma) as [Hu|Hu]; [left | right];
    (split; [exact Hu|]); unfold generate.
  - rewrite (sg_usable _ _ _ Hu). fold L.
    replace (gamma_in_force L delta gamma) with gamma'
      by (unfold gamma_in_force, gamma', derived, delta';
          destruct gamma; [reflexivity|]; destruct delta; reflexivity).
    eexists. split; [reflexivity|]. split; [reflexivity|]. split.
    + rewrite length_map, length_seqZ. reflexivity.
    + intros k Hk. rewrite avec_lookup by exact Hk. reflexivity.
  - intros return_alpha. rewrite (sg_unusable _ _ _ Hu). reflexivity.
Qed.

(** C8, as the code has it. A call that does not ask for alpha and gets
    past lines 68-69 leaves in the instance the [avec] and [bvec] of that
    call, whatever the two fields held before. A call that asks for alpha
    returns that [avec] and leaves the instance as it was, and so does a
    call on which line 68 or 69 raises. *)
Theorem generate_fields (d : Z) (delta gamma : option (scalar F)) :
  (args_usable delta gamma /\
   exists av,
     forall self : instance F,
       generate self d delta gamma true = (self, Return av) /\
       fst (generate self d delta gamma false) =
         {| verbose := verbose self; avec := Some av;
            bvec := Some (map fneg (reverse av)) |}) \/
  (~ args_usable delta gamma /\
   forall (self : instance F) (return_alpha : bool),
     generate self d delta gamma return_alpha =
       (self, Raise (line_68_69_exn gamma))).
Proof.
  destruct (args_usable_dec delta gamma) as [Hu|Hu]; [left | right];
    (split; [exact Hu|]); unfold generate.
  - rewrite (sg_usable _ _ _ Hu).
    eexists. intros self. split; reflexivity.
  - intros self return_alpha. rewrite (sg_unusable _ _ _ Hu). reflexivity.
Qed.

End Facts.

Lemma default_args_usable : args_usable (F := R) None None.
Proof.
  unfold args_usable. cbn. apply bool_decide_eq_false_2. lra.
Qed.

(** C3 as stated fails: [generate(2, delta=0.0)] divides by a Python zero
    at line 68 and raises ZeroDivisionError; no phase vector is returned. *)
Lemma generate_zero_delta_raises :
  generate (F := R) (init true) 2 (Some (PyFloat 0%R)) None false =
    (init true, Raise ZeroDivisionError).
Proof.
  unfold generate, gamma_of, py_recip. cbn.
  rewrite bool_decide_eq_true_2 by reflexivity. reflexivity.
Qed.

Lemma generate_length_and_interleaving_witness :
  (0 < 2)%Z /\ args_usable (F := R) None None /\
  exists phi : list R,
    snd (generate (init true) 2 None None false) = Return phi /\
    length phi = 4%nat.
Proof.
  split; [lia|]. split; [exact default_args_usable|].
  destruct (generate_length_and_interleaving (init true) 2 None None)
    as (av & bv & phi & Hgen & Hlen & _); [lia | exact default_args_usable |].
  exists phi. rewrite Hgen. split; [reflexivity | exact Hlen].
Defined.

(** C8 as stated fails: [generate(1, return_alpha=True)] on a fresh
    instance returns a one-element alpha vector and leaves the instance
    without [avec] and [bvec]. *)
Lemma generate_return_alpha_stores_nothing :
  let call := generate (F := R) (init true) 1 None None true in
  (exists a, snd call = Return [a]) /\
  avec (fst call) = None /\ bvec (fst call) = None.
Proof.
  cbv zeta. unfold generate.
  rewrite (sg_usable _ _ _ default_args_usable).
  split; [eexists; reflexivity|]. split; reflexivity.
Qed.

End FPSearchFacts.

(** ** erf_step *)

Module ErfStepFacts.

Import Phases PrimFloat.

(** C5. [erf_step.generate] is a lookup: [n = 7] gives the eight literal
    doubles of the erf(1.5 x) table, [n = 23] the twenty-four of the
    erf(2 x) table, and any other [n] raises, with nothing computed from
    [n]. *)
Theorem generate_lookup :
  erf_step.generate 7 =
    Return [1.58019; 0.00172821; 0.251897; -0.834542; -0.834542; 0.251897;
            0.00172821; 0.00939863]%float /\
  erf_step.generate 23 =
    Return [1.5708; 2.87883E-8; 5.83909E-7; 1.84144E-6; 0.0000209995;
            -0.0000120126; 0.000564903; -0.0022922; 0.0150024;
            -0.064666; 0.263754; -0.926685; -0.926912; 0.263756;
            -0.0645576; 0.014932; -0.00225885; 0.000553565;
            -8.29284E-6; 0.0000200459; 2.09476E-6; 5.3026E-7;
            4.38578E-8; 3.66401E-9]%float /\
  forall n : Z, n <> 7%Z -> n <> 23%Z ->
    erf_step.generate n =
      Raise (Exception "[pyqsp.phases.erf_step] n must be 7 or 23").
Proof.
  split; [reflexivity|]. split; [reflexivity|].
  intros n H7 H23. unfold erf_step.generate.
  destruct (Z.eqb_spec n 7) as [|_]; [contradiction|].
  destruct (Z.eqb_spec n 23) as [|_]; [contradiction|].
  reflexivity.
Qed.

Lemma generate_lookup_witness :
  8%Z <> 7%Z /\ 8%Z <> 23%Z /\
  erf_step.generate 8 =
    Raise (Exception "[pyqsp.phases.erf_step] n must be 7 or 23").
Proof.
  split; [lia|]. split; [lia|].
  apply (proj2 (proj2 generate_lookup)); lia.
Defined.

End ErfStepFacts.

(** ** ExtractionSequence and SqrtSequence *)

Module MultivariateFacts.

Import Phases.

(** C9. Whatever the two collaborators are, [SqrtSequence.generate(n)] and
    [ExtractionSequence.generate(n)] give the same result from the same
    state: [PolyExtraction().generate(degree=n)], and on its result [Q] the
    call [QuantumSignalProcessingPhases(Q, poly_type="Q", measurement="z")];
    an exception of the first call is passed on. *)
Theorem SqrtSequence_is_ExtractionSequence
    (W Poly Phi : Type)
    (PolyExtraction_generate : Z -> W -> W * outcome Poly)
    (QuantumSignalProcessingPhases : Poly -> string -> string -> W -> W * outcome Phi)
    (n : Z) (w : W) :
  let extraction :=
    ExtractionSequence_generate W Poly Phi PolyExtraction_generate
      QuantumSignalProcessingPhases n w in
  let sqrt_seq :=
    SqrtSequence_generate W Poly Phi PolyExtraction_generate
      QuantumSignalProcessingPhases n w in
  sqrt_seq = extraction /\
  (forall w' Q, PolyExtraction_generate n w = (w', Return Q) ->
     extraction = QuantumSignalProcessingPhases Q "Q" "z" w') /\
  (forall w' e, PolyExtraction_generate n w = (w', Raise e) ->
     extraction = (w', Raise e)).
Proof.
  cbv zeta. unfold SqrtSequence_generate, ExtractionSequence_generate.
  split; [reflexivity|]. split.
  - intros w' Q ->. reflexivity.
  - intros w' e ->. reflexivity.
Qed.

Lemma SqrtSequence_is_ExtractionSequence_witness :
  let poly := fun (n : Z) (w : nat) => (S w, Return (Z.to_nat n)) in
  let solve := fun (Q : nat) (poly_type measurement : string) (w : nat) =>
                 (S w, Return (replicate Q (poly_type, measurement))) in
  poly 2%Z 0%nat = (1%nat, Return 2%nat) /\
  SqrtSequence_generate nat nat (list (string * string)) poly solve 2 0 =
    (2%nat, Return [("Q", "z"); ("Q", "z")]).
Proof.
  cbv zeta. split; [reflexivity|].
  destruct (SqrtSequence_is_ExtractionSequence nat nat (list (string * string))
              (fun n w => (S w, Return (Z.to_nat n)))
              (fun Q poly_type measurement w =>
                 (S w, Return (replicate Q (poly_type, measurement)))) 2 0)
    as (-> & Hcall & _).
  rewrite (Hcall 1%nat 2%nat eq_refl). reflexivity.
Defined.

End MultivariateFacts.

(** ** poly2chebyfn *)

Module ChebyFacts.

Import Phases.

Open Scope R_scope.

(** *** Coefficient lists *)

Lemma peval_app_zeros (p : list R) (n : nat) (x : R) :
  peval (p ++ replicate n 0) x = peval p x.
Proof.
  induction p as [|a p IH]; cbn.
  - induction n as [|n IHn]; cbn; [reflexivity|]. rewrite IHn. ring.
  - rewrite IH. reflexivity.
Qed.

Lemma peval_scale (c : R) (p : list R) (x : R) :
  peval (map (Rmult c) p) x = c * peval p x.
Proof.
  induction p as [|a p IH]; cbn; [ring|]. rewrite IH. ring.
Qed.

Lemma peval_opp (p : list R) (x : R) : peval (map Ropp p) x = - peval p x.
Proof.
  induction p as [|a p IH]; cbn; [ring|]. rewrite IH. ring.
Qed.

Lemma peval_poly_sub (p q : list R) (x : R) :
  peval (poly_sub p q) x = peval p x - peval q x.
Proof.
  revert q. induction p as [|a p IH]; intros [|b q]; cbn; try ring.
  - rewrite peval_opp. ring.
  - rewrite IH. ring.
Qed.

Lemma length_poly_sub (p q : list R) :
  length (poly_sub p q) = Nat.max (length p) (length q).
Proof.
  revert q. induction p as [|a p IH]; intros [|b q]; cbn; try reflexivity.
  - rewrite length_map. reflexivity.
  - rewrite IH. reflexivity.
Qed.

Lemma nth_poly_sub (p q : list R) (i : nat) :
  nth i (poly_sub p q) 0 = nth i p 0 - nth i q 0.
Proof.
  revert q i. induction p as [|a p IH]; intros [|b q] [|i]; cbn; try ring.
  - destruct (Nat.lt_ge_cases i (length q)) as [Hlt|Hge].
    + rewrite (nth_indep _ 0 (- 0)) by (rewrite length_map; exact Hlt).
      rewrite map_nth. ring.
    + rewrite !nth_overflow by (rewrite ?length_map; exact Hge). ring.
  - apply IH.
Qed.

Lemma nth_scale (c : R) (p : list R) (i : nat) :
  nth i (map (Rmult c) p) 0 = c * nth i p 0.
Proof.
  revert i. induction p as [|a p IH]; intros [|i]; cbn; try ring. apply IH.
Qed.

Lemma nth_app_zeros (p : list R) (n i : nat) :
  nth i (p ++ replicate n 0) 0 = nth i p 0.
Proof.
  revert i. induction p as [|a p IH]; intros i; cbn.
  - destruct (Nat.lt_ge_cases i n) as [Hlt|Hge].
    + rewrite nth_lookup, lookup_replicate_2 by exact Hlt. destruct i; reflexivity.
    + rewrite nth_overflow by (rewrite length_replicate; exact Hge).
      destruct i; reflexivity.
  - destruct i; [reflexivity | apply IH].
Qed.

(** *** The two tables *)

(** The pair built by [cheb_pair]: lengths, positive leading coefficients,
    and values that follow the recurrence on values. *)
Lemma cheb_pair_spec (k : cheb_kind) (n : nat) :
  let '(a, b) := cheb_pair k n in
  length a = S n /\ length b = S (S n) /\
  0 < nth n a 0 /\ 0 < nth (S n) b 0 /\
  forall x, (peval a x, peval b x) = cheb_val_pair k n x.
Proof.
  induction n as [|n IH].
  - destruct k; cbn; repeat split; try lra; intros x; f_equal; ring.
  - cbn [cheb_pair cheb_val_pair]. destruct (cheb_pair k n) as [a b].
    destruct IH as (Ha & Hb & Hla & Hlb & Hval).
    split; [exact Hb|]. split.
    { rewrite length_poly_sub. cbn. rewrite length_map. lia. }
    split; [exact Hlb|]. split.
    { rewrite nth_poly_sub. cbn [nth]. rewrite nth_scale.
      rewrite (nth_overflow a) by lia. lra. }
    intros x. specialize (Hval x). destruct (cheb_val_pair k n x) as [va vb].
    injection Hval as Hva Hvb.
    rewrite peval_poly_sub. cbn [peval]. rewrite peval_scale, Hva, Hvb.
    f_equal. ring.
Qed.

Lemma length_cheb (k : cheb_kind) (n : nat) : length (fst (cheb_pair k n)) = S n.
Proof.
  pose proof (cheb_pair_spec k n) as Hs.
  destruct (cheb_pair k n) as [a b]. apply Hs.
Qed.

Lemma lead_cheb (k : cheb_kind) (n : nat) : nth n (fst (cheb_pair k n)) 0 <> 0.
Proof.
  pose proof (cheb_pair_spec k n) as Hs.
  destruct (cheb_pair k n) as [a b]. cbn. destruct Hs as (_ & _ & Hl & _). lra.
Qed.

Lemma peval_cheb (k : cheb_kind) (n : nat) (x : R) :
  peval (fst (cheb_pair k n)) x = chebyshev k n x.
Proof.
  pose proof (cheb_pair_spec k n) as Hs. unfold chebyshev.
  destruct (cheb_pair k n) as [a b]. destruct Hs as (_ & _ & _ & _ & Hv).
  rewrite <- Hv. reflexivity.
Qed.

(** *** Arrays of finite entries *)

Lemma np_broadcast_same_length {A B C : Type} (f : A -> B -> C)
    (a : list A) (b : list B) :
  length a = length b -> np_broadcast f a b = Return (zip_with f a b).
Proof.
  intros Hlen. unfold np_broadcast. rewrite decide_True by exact Hlen.
  reflexivity.
Qed.

Lemma np_div_fin (r c : R) : c <> 0 -> np_div (Fin r) c = Fin (r / c).
Proof.
  intros Hc. unfold np_div. rewrite decide_False by exact Hc. reflexivity.
Qed.

Lemma zip_sub_fin (q : R) (P Q : list R) :
  zip_with np_sub (map Fin P) (map (np_scale (Fin q)) Q) =
  map Fin (zip_with (fun p t => p - q * t) P Q).
Proof.
  revert Q. induction P as [|p P IH]; intros [|t Q]; cbn; try reflexivity.
  rewrite IH. reflexivity.
Qed.

Lemma peval_zip_sub (q : R) (P Q : list R) (x : R) :
  length P = length Q ->
  peval (zip_with (fun p t => p - q * t) P Q) x = peval P x - q * peval Q x.
Proof.
  revert Q. induction P as [|p P IH]; intros [|t Q] Hlen; cbn in *;
    try discriminate; [ring|].
  rewrite IH by congruence. ring.
Qed.

Lemma nth_zip_sub (q : R) (P Q : list R) (i : nat) :
  length P = length Q ->
  nth i (zip_with (fun p t => p - q * t) P Q) 0 = nth i P 0 - q * nth i Q 0.
Proof.
  revert Q i. induction P as [|p P IH]; intros [|t Q] i Hlen; cbn in *;
    try discriminate.
  - destruct i; ring.
  - destruct i; [reflexivity|]. apply IH. congruence.
Qed.

Lemma peval_zero (P : list R) (x : R) :
  (forall i, nth i P 0 = 0) -> peval P x = 0.
Proof.
  induction P as [|p P IH]; intros Hzero; [reflexivity|].
  cbn. rewrite IH by (intros i; apply (Hzero (S i))).
  pose proof (Hzero 0%nat) as Hp. cbn in Hp. rewrite Hp. ring.
Qed.

Lemma reverse_seq_S (l : nat) : reverse (seq 0 (S l)) = l :: reverse (seq 0 l).
Proof. rewrite seq_S, reverse_app. reflexivity. Qed.

Lemma series_snoc (basis : nat -> R -> R) (cs : list R) (q : R) (x : R) :
  forall l,
    series basis l (cs ++ [q]) x =
    series basis l cs x + q * basis (l + length cs)%nat x.
Proof.
  induction cs as [|c cs IH]; intros l; cbn.
  - rewrite Nat.add_0_r. ring.
  - rewrite IH. replace (S l + length cs)%nat with (l + S (length cs))%nat by lia.
    ring.
Qed.

Lemma series_ext (b1 b2 : nat -> R -> R) (cs : list R) (x : R) :
  (forall l, b1 l x = b2 l x) ->
  forall l, series b1 l cs x = series b2 l cs x.
Proof.
  intros Hb. induction cs as [|c cs IH]; intros l; cbn; [reflexivity|].
  rewrite Hb, IH. reflexivity.
Qed.

(** *** The sweep over a well-formed table

    A table whose entry [l] has [l + 1] coefficients, the last of them
    not zero. *)

Section Sweep.

Variable cf : nat -> list R.
Hypothesis cf_length : forall l, length (cf l) = S l.
Hypothesis cf_lead : forall l, nth l (cf l) 0 <> 0.

(** One step at degree [l] on finite arrays: the quotient [q] is appended
    to [C], and [P] loses [q] times the table entry. *)
Lemma sweep_step_fin (deg l : nat) (P C : list R) :
  (l <= deg)%nat -> length P = S deg ->
  let q := nth l P 0 / nth l (cf l) 0 in
  exists P1,
    sweep_step (Some cf) deg l (map Fin P, map Fin C) =
      Return (map Fin P1, map Fin (C ++ [q])) /\
    length P1 = S deg /\
    (forall i, nth i P1 0 = nth i P 0 - q * nth i (cf l) 0) /\
    (forall x, peval P1 x = peval P x - q * peval (cf l) x).
Proof.
  intros Hl HP q.
  set (Q := cf l ++ replicate (deg - l) 0).
  assert (HQ : length P = length Q)
    by (unfold Q; rewrite length_app, cf_length, length_replicate; lia).
  exists (zip_with (fun p t => p - q * t) P Q).
  split; [|split; [|split]].
  - unfold sweep_step.
    destruct (lookup_lt_is_Some_2 P l) as [r Hr]; [lia|].
    rewrite list_lookup_fmap, Hr. cbn [fmap option_fmap option_map mbind outcome_bind or_raise].
    destruct (lookup_lt_is_Some_2 (cf l) l) as [c Hc]; [rewrite cf_length; lia|].
    rewrite (getitem_nonneg (cf l) _ c);
      [| rewrite cf_length; lia
       | rewrite cf_length; replace (Z.to_nat _) with l by lia; exact Hc].
    cbn [mbind outcome_bind].
    assert (Hrq : np_div (Fin r) c = Fin q).
    { unfold q. rewrite (nth_lookup_Some _ _ _ _ Hr), (nth_lookup_Some _ _ _ _ Hc).
      apply np_div_fin. rewrite <- (nth_lookup_Some _ _ 0 _ Hc). apply cf_lead. }
    rewrite Hrq. fold Q.
    rewrite np_broadcast_same_length by (rewrite !length_map; exact HQ).
    cbn. rewrite zip_sub_fin, map_app. reflexivity.
  - rewrite length_zip_with. lia.
  - intros i. rewrite nth_zip_sub by exact HQ. unfold Q.
    rewrite nth_app_zeros. reflexivity.
  - intros x. rewrite peval_zip_sub by exact HQ. unfold Q.
    rewrite peval_app_zeros. reflexivity.
Qed.

(** The loop over [l = m - 1, ..., 0] on a finite [P] of length [deg + 1]
    whose coefficients from [m] up are zero: it ends with finite
    quotients [cs], appended to [C] highest degree first, and [P] is the
    series of the table entries with these coefficients. *)
Lemma sweep_loop_fin (deg : nat) (m : nat) : forall P C : list R,
  (m <= S deg)%nat -> length P = S deg ->
  (forall i, (m <= i)%nat -> nth i P 0 = 0) ->
  exists (cs : list R) (st : list npfloat * list npfloat),
    for_each (sweep_step (Some cf) deg) (reverse (seq 0 m)) (map Fin P, map Fin C)
      = Return st /\
    snd st = map Fin (C ++ reverse cs) /\
    length cs = m /\
    forall x, peval P x = series (fun l => peval (cf l)) 0 cs x.
Proof.
  induction m as [|l IH]; intros P C Hm HP Hzero.
  - exists [], (map Fin P, map Fin C). cbn.
    split; [reflexivity|]. split; [rewrite app_nil_r; reflexivity|].
    split; [reflexivity|].
    intros x. apply peval_zero. intros i. apply Hzero. lia.
  - rewrite reverse_seq_S. cbn [for_each].
    destruct (sweep_step_fin deg l P C) as (P1 & Hstep & HP1 & Hnth & Hval);
      [lia | exact HP |].
    rewrite Hstep. cbn [mbind outcome_bind].
    destruct (IH P1 (C ++ [nth l P 0 / nth l (cf l) 0])) as (cs & st & Hrun & Hsnd & Hlen & Hser);
      [lia | exact HP1 | |].
    { intros i Hi. rewrite Hnth.
      destruct (decide (i = l)) as [->|Hne].
      - field. apply cf_lead.
      - rewrite (Hzero i) by lia.
        rewrite (@nth_overflow _ (cf l) i 0) by (rewrite cf_length; lia). ring. }
    exists (cs ++ [nth l P 0 / nth l (cf l) 0]), st.
    split; [exact Hrun|]. split.
    { rewrite Hsnd, reverse_app, <- app_assoc. reflexivity. }
    split; [rewrite length_app; cbn; lia|].
    intros x. rewrite series_snoc, <- Hser, Hval, Hlen. cbn. ring.
Qed.

(** The whole of lines 153-161 on a finite input. *)
Lemma cheby_sweep_fin (pcoefs : list R) :
  exists cs : list R,
    cheby_sweep (Some cf) (map Fin pcoefs) = Return (map Fin cs) /\
    length cs = length pcoefs /\
    forall x, series (fun l => peval (cf l)) 0 cs x = peval pcoefs x.
Proof.
  unfold cheby_sweep. rewrite length_map.
  destruct pcoefs as [|p0 P'] eqn:HP.
  - exists []. cbn. repeat split; reflexivity.
  - rewrite <- HP. assert (Hlen : length pcoefs = S (length P')) by (subst; reflexivity).
    rewrite Hlen. replace (S (length P') - 1)%nat with (length P') by lia.
    destruct (sweep_loop_fin (length P') (S (length P')) pcoefs [])
      as (cs & st & Hrun & Hsnd & Hcs & Hser); [lia | exact Hlen | |].
    { intros i Hi. apply nth_overflow. lia. }
    change (map Fin []) with (@nil npfloat) in Hrun.
    exists cs. rewrite Hrun. cbn [mbind outcome_bind]. rewrite Hsnd.
    cbn [app]. rewrite <- fmap_reverse, reverse_involutive.
    split; [reflexivity|]. split; [exact Hcs|].
    intros x. symmetry. apply Hser.
Qed.

End Sweep.

(** *** The tables of kind T and U are well formed *)

Lemma cfunc_of_kind (k : cheb_kind) : cfunc_of (kind_tag k) = Some (table k).
Proof. destruct k; reflexivity. Qed.

Lemma table_cheb (k : cheb_kind) (l : nat) : table k l = fst (cheb_pair k l).
Proof.
  destruct k; cbn; unfold chebyt_coef, chebyu_coef; apply reverse_involutive.
Qed.

Lemma table_length (k : cheb_kind) (l : nat) : length (table k l) = S l.
Proof. rewrite table_cheb. apply length_cheb. Qed.

Lemma table_lead (k : cheb_kind) (l : nat) : nth l (table k l) 0 <> 0.
Proof. rewrite table_cheb. apply lead_cheb. Qed.

(** The round trip in exact arithmetic (tables that hold the exact
    Chebyshev coefficients, operations on reals that neither round nor
    overflow): for a power-basis coefficient sequence (index = power) and
    kind T or U, [poly2chebyfn] returns as many coefficients [c_0 .. c_deg]
    as it was given, lowest degree first, and the sum over [l] of [c_l]
    times the Chebyshev polynomial of degree [l] of that kind has, at every
    point, the value of the input polynomial. *)
Theorem poly2chebyfn_round_trip (k : cheb_kind) (pcoefs : list R) :
  exists cs : list R,
    poly2chebyfn (map Fin pcoefs) (kind_tag k) = Return (map Fin cs) /\
    length cs = length pcoefs /\
    forall x, cheb_series k cs x = peval pcoefs x.
Proof.
  unfold poly2chebyfn. rewrite cfunc_of_kind.
  destruct (cheby_sweep_fin (table k) (table_length k) (table_lead k) pcoefs)
    as (cs & Hrun & Hlen & Hser).
  exists cs. split; [exact Hrun|]. split; [exact Hlen|].
  intros x. rewrite <- Hser. unfold cheb_series.
  apply series_ext. intros l. rewrite table_cheb, peval_cheb. reflexivity.
Qed.

(** In exact arithmetic, for kind T and U the divisor of line 159,
    [poly_term[len(poly_term)-1]], exists and is not zero at every
    degree. *)
Theorem poly2chebyfn_divisor_nonzero (k : cheb_kind) :
  exists cfunc,
    cfunc_of (kind_tag k) = Some cfunc /\
    forall l : nat,
      exists lead, divisor cfunc l = Return lead /\ lead <> 0.
Proof.
  exists (table k). split; [apply cfunc_of_kind|].
  intros l.
  destruct (lookup_lt_is_Some_2 (table k l) l) as [c Hc];
    [rewrite table_length; lia|].
  exists c. split.
  - unfold divisor. apply getitem_nonneg; [rewrite table_length; lia|].
    rewrite table_length. replace (Z.to_nat _) with l by lia. exact Hc.
  - rewrite <- (nth_lookup_Some _ _ 0 _ Hc). apply table_lead.
Qed.

End ChebyFacts.

(** ** ComputeQSPResponse *)

Module ResponseFacts.

Import Response.

Section Facts.

Context {F C : Type} {float64 : Float64 F} {complex128 : Complex128 F C}.

Implicit Types (adat : list (scalar F)) (phiset : list F) (pdat : list C)
  (cfg : config F C) (signal_operator : string) (measurement : option string).

(** *** Lines 29-67 *)

Lemma configure_invalid_signal signal_operator measurement :
  signal_operator <> "Wx" -> signal_operator <> "Wz" ->
  configure (F := F) (C := C) signal_operator measurement =
    Raise (ResponseError ("Invalid signal_operator: " ++ signal_operator)).
Proof.
  intros Hx Hz. unfold configure.
  apply String.eqb_neq in Hx, Hz. rewrite Hx, Hz. reflexivity.
Qed.

Lemma configure_invalid_measurement signal_operator (m : string) :
  signal_operator = "Wx" \/ signal_operator = "Wz" ->
  m <> "x" -> m <> "z" ->
  configure (F := F) (C := C) signal_operator (Some m) =
    Raise (ResponseError ("Invalid measurement: " ++ m)).
Proof.
  intros Hso Hx Hz. unfold configure.
  apply String.eqb_neq in Hx, Hz.
  destruct Hso as [-> | ->]; cbn; rewrite Hx, Hz; reflexivity.
Qed.

(** The measurement in force for an accepted configuration. *)
Lemma configure_valid signal_operator measurement :
  valid_config signal_operator measurement ->
  exists cfg,
    configure (F := F) (C := C) signal_operator measurement = Return cfg /\
    default_measurement signal_operator measurement = Some (snd (model cfg)) /\
    fst (model cfg) = signal_operator.
Proof.
  intros [[-> | ->] [-> | [-> | ->]]]; eexists; (split; [reflexivity|]);
    split; reflexivity.
Qed.

(** The [sig_op] of an accepted configuration raises OverflowError on the
    samples whose square overflows and returns an array on the others. *)
Lemma configure_sig_op signal_operator measurement cfg :
  configure signal_operator measurement = Return cfg ->
  exists Wf : scalar F -> mat2 C,
    forall a,
      sig_op cfg a =
        if pow_raises a 2 then Raise OverflowError else Return (Wf a).
Proof.
  unfold configure.
  destruct (String.eqb signal_operator "Wx");
    [|destruct (String.eqb signal_operator "Wz"); [|discriminate]];
    cbn [mbind outcome_bind fst snd];
    destruct (default_measurement signal_operator measurement) as [m|];
    try discriminate;
    destruct (String.eqb m "x"); [| destruct (String.eqb m "z"); [|discriminate] | |
                                    destruct (String.eqb m "z"); [|discriminate]];
    intros [= <-]; cbn [sig_op]; eexists (fun a => _); intros a;
    unfold sig_op_Wx, sig_op_Wz, py_pow; destruct (pow_raises a 2); reflexivity.
Qed.

(** *** Lines 69-79 *)

(** With at least one phase, and samples that [sig_op] accepts, the loop
    never raises: each sample appends its response value. *)
Lemma sample_loop_nonempty cfg (Wf : scalar F -> mat2 C) (P0 : mat2 C)
    (Ps : list (mat2 C)) adat :
  Forall (fun a => sig_op cfg a = Return (Wf a)) adat ->
  forall pdat,
    sample_loop cfg (P0 :: Ps) adat pdat =
      (pdat ++ map (fun a =>
                      response_value cfg
                        (foldl (fun U pm => matmul (matmul U (Wf a)) pm) P0 Ps))
                 adat,
       None).
Proof.
  induction 1 as [|a adat Ha _ IH]; intros pdat; cbn [sample_loop map].
  - rewrite app_nil_r. reflexivity.
  - unfold qsp_unitary. rewrite Ha. cbn [mbind outcome_bind].
    rewrite (getitem_nonneg (P0 :: Ps) 0 P0) by (lia || reflexivity).
    cbn [mbind outcome_bind drop]. rewrite IH, <- app_assoc. reflexivity.
Qed.

(** The loop stops at the first sample that [sig_op] refuses, with the
    responses of the samples before it. *)
Lemma sample_loop_raise cfg (Wf : scalar F -> mat2 C) (P0 : mat2 C)
    (Ps : list (mat2 C)) (pre : list (scalar F)) (a : scalar F)
    (post : list (scalar F)) (e : exn) :
  Forall (fun a => sig_op cfg a = Return (Wf a)) pre ->
  sig_op cfg a = Raise e ->
  forall pdat,
    sample_loop cfg (P0 :: Ps) (pre ++ a :: post) pdat =
      (pdat ++ map (fun a =>
                      response_value cfg
                        (foldl (fun U pm => matmul (matmul U (Wf a)) pm) P0 Ps))
                 pre,
       Some e).
Proof.
  intros Hpre Ha. induction Hpre as [|b pre Hb _ IH]; intros pdat;
    cbn [app sample_loop map].
  - unfold qsp_unitary. rewrite Ha, app_nil_r. reflexivity.
  - unfold qsp_unitary. rewrite Hb. cbn [mbind outcome_bind].
    rewrite (getitem_nonneg (P0 :: Ps) 0 P0) by (lia || reflexivity).
    cbn [mbind outcome_bind drop]. rewrite IH, <- app_assoc. reflexivity.
Qed.

(** With no phase the first sample raises: IndexError at [pmats[0]], unless
    [sig_op] has raised on the line before. *)
Lemma sample_loop_no_phase cfg (a : scalar F) adat pdat :
  sample_loop cfg [] (a :: adat) pdat =
    (pdat, Some (match sig_op cfg a with Return _ => IndexError | Raise e => e end)).
Proof.
  cbn [sample_loop]. unfold qsp_unitary.
  destruct (sig_op cfg a) as [W|e]; cbn [mbind outcome_bind]; [|reflexivity].
  rewrite getitem_empty. reflexivity.
Qed.

(** The loop of lines 77-78 multiplies, from the left, the factors
    [W, qsp_op(phi_1), W, qsp_op(phi_2), ...] onto [U]. *)
Lemma unitary_is_word_product cfg (W : mat2 C) (rest : list F) :
  forall U : mat2 C,
    foldl (fun U pm => matmul (matmul U W) pm) U (map (qsp_op cfg) rest) =
    foldl matmul U
      (map (denote cfg W)
         (flat_map (fun phi => [SignalFactor; PhaseFactor phi]) rest)).
Proof.
  induction rest as [|phi rest IH]; intros U; [reflexivity|].
  cbn [map flat_map app foldl denote]. apply IH.
Qed.

Lemma qsp_word_counts (phi0 : F) (rest : list F) :
  length (filter is_phase (qsp_word (phi0 :: rest))) = S (length rest) /\
  length (filter is_signal (qsp_word (phi0 :: rest))) = length rest.
Proof.
  cbn [qsp_word]. rewrite filter_cons_True by reflexivity.
  rewrite filter_cons_False by (cbn; auto).
  cbn [length]. induction rest as [|phi rest [IHp IHs]]; [split; reflexivity|].
  cbn [flat_map app].
  rewrite (filter_cons_False is_phase) by (cbn; auto).
  rewrite (filter_cons_True is_phase) by reflexivity.
  rewrite (filter_cons_True is_signal) by reflexivity.
  rewrite (filter_cons_False is_signal) by (cbn; auto).
  cbn [length]. split; congruence.
Qed.

(** C2, as the code has it. For a non-empty [phiset], an accepted
    configuration and an [adat] whose samples [sig_op] accepts (no Python
    float whose square overflows), [ComputeQSPResponse] returns a dataset
    whose [pdat] is as long as [adat]; for the sample [a = adat[i]],
    [pdat[i]] is [p_state^T @ U @ p_state], with the plain transpose, where
    [U] is the product, in this order, of
    [qsp_op(phi_0), sig_op(a), qsp_op(phi_1), ..., sig_op(a), qsp_op(phi_last)]:
    [len(phiset)] phase factors and [len(phiset) - 1] signal factors. *)
Theorem ComputeQSPResponse_ordered_product adat phiset signal_operator measurement :
  phiset <> [] ->
  valid_config signal_operator measurement ->
  Forall sample_ok adat ->
  exists cfg pdat,
    configure signal_operator measurement = Return cfg /\
    ComputeQSPResponse adat phiset signal_operator measurement =
      Returned (Dataset adat pdat (model cfg) phiset) /\
    length pdat = length adat /\
    forall (i : nat) (a : scalar F), adat !! i = Some a ->
      exists W,
        sig_op cfg a = Return W /\
        length (filter is_phase (qsp_word phiset)) = length phiset /\
        length (filter is_signal (qsp_word phiset)) = (length phiset - 1)%nat /\
        exists U,
          ordered_product (map (denote cfg W) (qsp_word phiset)) = Some U /\
          pdat !! i =
            Some (row_col (row_matmul (transpose (p_state cfg)) U) (p_state cfg)).
Proof.
  intros Hne Hvalid Hok. destruct phiset as [|phi0 rest]; [contradiction|].
  destruct (configure_valid _ _ Hvalid) as (cfg & Hcfg & _).
  destruct (configure_sig_op _ _ _ Hcfg) as [Wf HWf].
  assert (Hsig : Forall (fun a => sig_op cfg a = Return (Wf a)) adat).
  { eapply Forall_impl; [exact Hok|]. intros a Ha. cbn beta.
    rewrite HWf. unfold sample_ok in Ha. rewrite Ha. reflexivity. }
  unfold ComputeQSPResponse. rewrite Hcfg. cbn [map].
  rewrite (sample_loop_nonempty cfg Wf) by exact Hsig. cbn [app].
  eexists cfg, _. split; [reflexivity|]. split; [reflexivity|].
  split; [apply length_map|].
  intros i a Ha. exists (Wf a).
  split; [exact (proj1 (Forall_lookup _ _) Hsig i a Ha)|].
  destruct (qsp_word_counts phi0 rest) as [Hp Hs].
  split; [exact Hp|]. split; [rewrite Hs; cbn; lia|].
  eexists. split; [reflexivity|].
  rewrite list_lookup_fmap, Ha. cbn [fmap option_fmap option_map].
  rewrite unitary_is_word_product. reflexivity.
Qed.

(** C6. A [signal_operator] other than Wx and Wz, or a [measurement]
    other than x and z, makes [ComputeQSPResponse] raise ResponseError
    whatever [adat] and [phiset] are, with [pdat] still empty; a
    [measurement] of None is accepted, and stands for x under Wx and for z
    under Wz. *)
Theorem ComputeQSPResponse_invalid_configuration adat phiset signal_operator
    measurement :
  (signal_operator <> "Wx" -> signal_operator <> "Wz" ->
   ComputeQSPResponse (C := C) adat phiset signal_operator measurement =
     Raised (ResponseError ("Invalid signal_operator: " ++ signal_operator)) []) /\
  (forall m : string,
     signal_operator = "Wx" \/ signal_operator = "Wz" ->
     measurement = Some m -> m <> "x" -> m <> "z" ->
     ComputeQSPResponse (C := C) adat phiset signal_operator measurement =
       Raised (ResponseError ("Invalid measurement: " ++ m)) []) /\
  (exists cfg,
     configure (F := F) (C := C) "Wx" None = Return cfg /\ model cfg = ("Wx", "x")) /\
  (exists cfg,
     configure (F := F) (C := C) "Wz" None = Return cfg /\ model cfg = ("Wz", "z")) /\
  ComputeQSPResponse (C := C) adat phiset "Wx" None =
    ComputeQSPResponse adat phiset "Wx" (Some "x") /\
  ComputeQSPResponse (C := C) adat phiset "Wz" None =
    ComputeQSPResponse adat phiset "Wz" (Some "z").
Proof.
  split; [|split; [|split; [|split; [|split]]]].
  - intros Hx Hz. unfold ComputeQSPResponse.
    rewrite configure_invalid_signal by assumption. reflexivity.
  - intros m Hso -> Hx Hz. unfold ComputeQSPResponse.
    rewrite configure_invalid_measurement by assumption. reflexivity.
  - eexists. split; reflexivity.
  - eexists. split; reflexivity.
  - reflexivity.
  - reflexivity.
Qed.

(** Lines 75-76 on the first sample when [phiset] is empty. *)
Lemma ComputeQSPResponse_no_phase signal_operator measurement (a : scalar F) adat :
  valid_config signal_operator measurement ->
  ComputeQSPResponse (C := C) (a :: adat) [] signal_operator measurement =
    Raised (if pow_raises a 2 then OverflowError else IndexError) [].
Proof.
  intros Hvalid. destruct (configure_valid _ _ Hvalid) as (cfg & Hcfg & _).
  destruct (configure_sig_op _ _ _ Hcfg) as [Wf HWf].
  unfold ComputeQSPResponse. rewrite Hcfg. cbn [map].
  rewrite sample_loop_no_phase, HWf.
  destruct (pow_raises a 2); reflexivity.
Qed.

(** A first sample whose square overflows ends the call at line 75,
    whatever [phiset] is. *)
Lemma ComputeQSPResponse_first_overflow signal_operator measurement
    (a : scalar F) adat phiset :
  valid_config signal_operator measurement ->
  pow_raises a 2 = true ->
  ComputeQSPResponse (C := C) (a :: adat) phiset signal_operator measurement =
    Raised OverflowError [].
Proof.
  intros Hvalid Ha. destruct phiset as [|phi0 rest].
  - rewrite ComputeQSPResponse_no_phase by exact Hvalid. rewrite Ha. reflexivity.
  - destruct (configure_valid _ _ Hvalid) as (cfg & Hcfg & _).
    destruct (configure_sig_op _ _ _ Hcfg) as [Wf HWf].
    unfold ComputeQSPResponse. rewrite Hcfg. cbn [map].
    rewrite (sample_loop_raise cfg Wf _ _ [] a adat OverflowError);
      [reflexivity | constructor | rewrite HWf, Ha; reflexivity].
Qed.

(** C10, as the code has it. Under an accepted configuration, an empty
    [phiset] with at least one sample never returns a dataset: the first
    sample raises, with [pdat] still empty. It raises IndexError at
    [pmats[0]] when [sig_op] accepts that sample, and OverflowError from
    [sig_op], one line earlier, when it does not. An empty [adat] returns a
    dataset with an empty [pdat] for every [phiset], the empty one
    included. *)
Theorem ComputeQSPResponse_empty_inputs signal_operator measurement :
  valid_config signal_operator measurement ->
  (forall (a : scalar F) adat,
     ComputeQSPResponse (C := C) (a :: adat) [] signal_operator measurement =
       Raised (if pow_raises a 2 then OverflowError else IndexError) []) /\
  (forall phiset,
     exists cfg,
       configure signal_operator measurement = Return cfg /\
       ComputeQSPResponse (C := C) [] phiset signal_operator measurement =
         Returned (Dataset [] [] (model cfg) phiset)).
Proof.
  intros Hvalid. destruct (configure_valid _ _ Hvalid) as (cfg & Hcfg & _).
  split.
  - intros a adat. apply ComputeQSPResponse_no_phase. exact Hvalid.
  - intros phiset. exists cfg. split; [exact Hcfg|].
    unfold ComputeQSPResponse. rewrite Hcfg. reflexivity.
Qed.

End Facts.

Lemma Wx_default_valid : valid_config "Wx" None.
Proof. split; [left | left]; reflexivity. Qed.

(** The Python float [2.0 ** 600] in the ranged reading: its square is out
    of range. *)
Lemma huge_sample_overflows :
  pow_raises (float64 := RealModel.R_float64_ranged)
    (PyFloat (IZR (2 ^ 600))) 2 = true.
Proof.
  unfold pow_raises, py_pow_overflows, RealModel.R_float64_ranged.
  destruct (Rle_dec _ _) as [_ | Hn]; [reflexivity|].
  exfalso. apply Hn. clear Hn.
  unfold powerRZ. change (Pos.to_nat 2) with 2%nat.
  change (IZR (2 ^ 600) ^ 2)%R with (IZR (2 ^ 600) * (IZR (2 ^ 600) * 1))%R.
  rewrite Rmult_1_r, <- mult_IZR.
  rewrite Rabs_pos_eq by (apply IZR_le; apply Z.leb_le; vm_compute; reflexivity).
  apply IZR_le. apply Z.leb_le. vm_compute. reflexivity.
Qed.

(** C2 as stated fails: on the one Python float [2.0 ** 600] as [adat] and
    one phase, [a**2] raises OverflowError inside [sig_op]; no dataset is
    returned. *)
Lemma ComputeQSPResponse_overflowing_sample :
  ComputeQSPResponse (float64 := RealModel.R_float64_ranged) (C := R * R)
    [PyFloat (IZR (2 ^ 600))] [0%R] "Wx" None =
  Raised OverflowError [].
Proof.
  apply ComputeQSPResponse_first_overflow;
    [exact Wx_default_valid | exact huge_sample_overflows].
Qed.

(** C10 as stated fails: with no phase and the Python float [2.0 ** 600]
    as first sample, the call raises OverflowError at line 75, before
    [pmats[0]] is indexed. *)
Lemma ComputeQSPResponse_overflow_before_index :
  ComputeQSPResponse (float64 := RealModel.R_float64_ranged) (C := R * R)
    [PyFloat (IZR (2 ^ 600))] [] "Wx" None =
  Raised OverflowError [].
Proof.
  apply ComputeQSPResponse_first_overflow;
    [exact Wx_default_valid | exact huge_sample_overflows].
Qed.

Lemma all_samples_ok_exact (adat : list (scalar R)) : Forall sample_ok adat.
Proof. apply Forall_forall. intros [x|x] _; reflexivity. Qed.

Lemma ComputeQSPResponse_ordered_product_witness :
  [0%R; 0%R] <> [] /\ valid_config "Wx" None /\
  Forall sample_ok [PyFloat 1%R] /\
  exists pdat : list (R * R),
    ComputeQSPResponse [PyFloat 1%R] [0%R; 0%R] "Wx" None =
      Returned (Dataset [PyFloat 1%R] pdat ("Wx", "x") [0%R; 0%R]) /\
    length pdat = 1%nat.
Proof.
  split; [discriminate|]. split; [exact Wx_default_valid|].
  split; [apply all_samples_ok_exact|].
  destruct (ComputeQSPResponse_ordered_product (C := R * R) [PyFloat 1%R] [0%R; 0%R]
              "Wx" None)
    as (cfg & pdat & Hcfg & Hret & Hlen & _);
    [discriminate | exact Wx_default_valid | apply all_samples_ok_exact |].
  injection Hcfg as <-.
  exists pdat. split; [exact Hret | exact Hlen].
Defined.

Lemma ComputeQSPResponse_invalid_configuration_witness :
  "bogus" <> "Wx" /\ "bogus" <> "Wz" /\
  ComputeQSPResponse (C := R * R) [PyFloat 1%R] [0%R] "bogus" None =
    Raised (ResponseError "Invalid signal_operator: bogus") [].
Proof.
  split; [discriminate|]. split; [discriminate|].
  apply (proj1 (ComputeQSPResponse_invalid_configuration
                  (C := R * R) [PyFloat 1%R] [0%R] "bogus" None)); discriminate.
Defined.

Lemma ComputeQSPResponse_empty_inputs_witness :
  valid_config "Wx" None /\
  ComputeQSPResponse (C := R * R) [PyFloat 1%R] [] "Wx" None =
    Raised IndexError [].
Proof.
  split; [exact Wx_default_valid|].
  exact (proj1 (ComputeQSPResponse_empty_inputs (C := R * R) "Wx" None
                  Wx_default_valid) (PyFloat 1%R) []).
Defined.

End ResponseFacts.

(** ** The definitions at work on small inputs *)

Module Examples.

Import Phases Phases.FPSearch Response RealModel ChebyFacts ResponseFacts.

Open Scope R_scope.

(** [FPSearch().generate(1, gamma=np.float64(g))]: one angle, used twice. *)
Example generate_d1 {F : Type} {float64 : Float64 F} (self : instance F) (g : F) :
  let a := alpha 3 (np_sqrt (fsub (f_of_Z 1) (fpow g 2))) 1 in
  generate self 1 None (Some (NpFloat64 g)) false =
    ({| verbose := verbose self; avec := Some [a]; bvec := Some [fneg a] |},
     Return [fdiv (fneg a) (f_of_Z 2); fdiv (fneg a) (f_of_Z 2)]).
Proof. reflexivity. Qed.

(** [np.zeros] of a negative length raises after the fields are set. *)
Example generate_negative_d {F : Type} {float64 : Float64 F} (self : instance F)
    (g : F) :
  generate self (-1) None (Some (NpFloat64 g)) false =
    ({| verbose := verbose self; avec := Some []; bvec := Some [] |},
     Raise ValueError).
Proof. reflexivity. Qed.

(** T_2 = 2 x^2 - 1 and U_3 = 8 x^3 - 4 x, highest power first, as exact
    polynomials. *)
Example chebyt_coef_2 : chebyt_coef 2 = [2; 0; -1].
Proof. unfold chebyt_coef. cbn. repeat f_equal; lra. Qed.

Example chebyu_coef_3 : chebyu_coef 3 = [8; 0; -4; 0].
Proof. unfold chebyu_coef. cbn. repeat f_equal; lra. Qed.

(** In exact arithmetic, x^2 = T_0 / 2 + T_2 / 2. *)
Example poly2chebyfn_square :
  poly2chebyfn [Fin 0; Fin 0; Fin 1] "T" = Return [Fin (1/2); Fin 0; Fin (1/2)].
Proof.
  destruct (cheby_sweep_fin (table KindT) (table_length KindT) (table_lead KindT)
              [0; 0; 1]) as (cs & Hrun & Hlen & Hser).
  change (poly2chebyfn [Fin 0; Fin 0; Fin 1] "T")
    with (cheby_sweep (Some (table KindT)) (map Fin [0; 0; 1])).
  rewrite Hrun.
  destruct cs as [|c0 [|c1 [|c2 [|]]]]; try discriminate.
  pose proof (Hser 0) as H0. pose proof (Hser 1) as H1. pose proof (Hser (-1)) as H2.
  cbn in H0, H1, H2.
  assert (c0 = 1/2 /\ c1 = 0 /\ c2 = 1/2) as (-> & -> & ->) by lra.
  reflexivity.
Qed.

(** A kind other than T and U leaves [cfunc] unbound. *)
Example poly2chebyfn_unknown_kind :
  poly2chebyfn [Fin 1] "V" = Raise UnboundLocalError /\
  poly2chebyfn [] "V" = Return [].
Proof. split; reflexivity. Qed.

Lemma inv_sqrt2_sq : 1 / R_sqrt.sqrt 2 * (1 / R_sqrt.sqrt 2) = 1 / 2.
Proof.
  assert (H2 : R_sqrt.sqrt 2 * R_sqrt.sqrt 2 = 2) by (apply sqrt_sqrt; lra).
  assert (Hs : R_sqrt.sqrt 2 <> 0) by (intros E; rewrite E in H2; lra).
  replace (1 / R_sqrt.sqrt 2 * (1 / R_sqrt.sqrt 2))
    with (1 / (R_sqrt.sqrt 2 * R_sqrt.sqrt 2)) by (field; exact Hs).
  rewrite H2. reflexivity.
Qed.

(** The identity circuit in exact arithmetic: one zero phase under Wx/x
    responds 1 at every sample. *)
Example identity_circuit (a : scalar R) :
  ComputeQSPResponse [a] [0] "Wx" None =
    Returned (Dataset [a] [(1, 0)] ("Wx", "x") [0]).
Proof.
  unfold ComputeQSPResponse.
  change (configure "Wx" None)
    with (Return (Config ("Wx", "x") sig_op_Wx qsp_op_Wx p_state_x)).
  cbn [map].
  rewrite (sample_loop_nonempty _ (fun a => sig_array (value a) (fpow (value a) 2)))
    by (repeat constructor; destruct a; reflexivity).
  cbn.
  do 2 f_equal.
  replace (0 * 0 - 1 * 0) with 0 by ring.
  replace (0 * 0 + 1 * 0) with 0 by ring.
  replace (- 0 * 0 - - (1) * 0) with 0 by ring.
  replace (- 0 * 0 + - (1) * 0) with 0 by ring.
  rewrite exp_0, cos_0, sin_0.
  pose proof inv_sqrt2_sq as Hs. set (s := 1 / R_sqrt.sqrt 2) in *.
  f_equal; f_equal.
  - replace (_ - _ + _) with (2 * (s * s)) by ring. rewrite Hs. lra.
  - ring.
Qed.

End Examples.

(** ** FPSearch: edges and symmetry *)

Module FPSearchMore.

Import Phases.FPSearch FPSearchFacts.

Section Facts.

Context {F : Type} {float64 : Float64 F}.

Implicit Types (d k : Z) (av phi : list F).

(** A call that does not ask for alpha, for [d >= 0]: the stored vectors,
    the returned vector and its entries. *)
Lemma generate_run (self : instance F) d (delta gamma : option (scalar F)) :
  (0 <= d)%Z ->
  args_usable delta gamma ->
  exists av phi,
    generate self d delta gamma false =
      ({| verbose := verbose self; avec := Some av;
          bvec := Some (map fneg (reverse av)) |},
       Return phi) /\
    length av = Z.to_nat d /\
    length phi = Z.to_nat (2 * d) /\
    forall k a, (0 <= k < d)%Z ->
      av !! Z.to_nat k = Some a ->
      phi !! Z.to_nat (2 * (d - 1 - k)) = Some (fdiv (fneg a) (f_of_Z 2)) /\
      phi !! Z.to_nat (2 * k + 1) = Some (fdiv (fneg a) (f_of_Z 2)).
Proof.
  intros Hd Hu. unfold generate.
  rewrite (sg_usable _ _ _ Hu).
  set (sg := np_sqrt _).
  set (av := map (alpha (2 * d + 1) sg) (seqZ 1 d)).
  set (bv := map fneg (reverse av)).
  assert (Hav : length av = Z.to_nat d)
    by (unfold av; rewrite length_map, length_seqZ; lia).
  assert (Hbv : length bv = Z.to_nat d)
    by (unfold bv; rewrite length_map, length_reverse; exact Hav).
  unfold np_zeros. rewrite bool_decide_eq_false_2 by lia. cbn [mbind outcome_bind].
  destruct (assemble_loop d av bv (Z.to_nat d) 0 (replicate (Z.to_nat (2 * d)) (f_of_Z 0)))
    as (phi & Hrun & Hlen & _ & Hfill);
    try (lia || assumption); [apply length_replicate|].
  rewrite Z2Nat.id in Hrun by lia.
  exists av, phi. rewrite Hrun.
  split; [reflexivity|]. split; [exact Hav|]. split; [exact Hlen|].
  intros k a Hk Ha. split.
  - destruct (lookup_lt_is_Some_2 bv (Z.to_nat (d - (d - 1 - k) - 1))) as [b Hb]; [lia|].
    destruct (Hfill (d - 1 - k)%Z a b) as [He _]; [lia | | exact Hb | exact He].
    replace (d - (d - 1 - k) - 1)%Z with k by lia. exact Ha.
  - destruct (lookup_lt_is_Some_2 av (Z.to_nat (d - k - 1))) as [a' Ha']; [lia|].
    assert (Hb : bv !! Z.to_nat (d - k - 1) = Some (fneg a)).
    { apply bvec_lookup; [lia|].
      replace (length av - 1 - Z.to_nat (d - k - 1))%nat with (Z.to_nat k) by lia.
      exact Ha. }
    destruct (Hfill k a' (fneg a)) as [_ Ho]; [lia | exact Ha' | exact Hb | exact Ho].
Qed.

(** For [d >= 0] and arguments on which lines 68-69 raise nothing, the
    phase vector reads the same in both directions. *)
Theorem generate_palindrome (self : instance F) d
    (delta gamma : option (scalar F)) :
  (0 <= d)%Z ->
  args_usable delta gamma ->
  exists phi,
    snd (generate self d delta gamma false) = Return phi /\
    reverse phi = phi.
Proof.
  intros Hd Hu.
  destruct (generate_run self d delta gamma Hd Hu) as (av & phi & Hgen & Hav & Hphi & Hent).
  exists phi. rewrite Hgen. split; [reflexivity|].
  apply list_eq. intros i.
  destruct (decide (i < length phi)%nat) as [Hi|Hi].
  - rewrite reverse_lookup by exact Hi.
    destruct (Nat.Even_or_Odd i) as [[k ->] | [k ->]].
    + destruct (lookup_lt_is_Some_2 av (Z.to_nat (d - 1 - Z.of_nat k))) as [a Ha]; [lia|].
      destruct (Hent (d - 1 - Z.of_nat k)%Z a) as [He Ho]; [lia | exact Ha |].
      replace (length phi - S (2 * k))%nat
        with (Z.to_nat (2 * (d - 1 - Z.of_nat k) + 1)) by lia.
      rewrite Ho.
      replace (2 * k)%nat
        with (Z.to_nat (2 * (d - 1 - (d - 1 - Z.of_nat k)))) by lia.
      rewrite He. reflexivity.
    + destruct (lookup_lt_is_Some_2 av k) as [a Ha]; [lia|].
      destruct (Hent (Z.of_nat k) a) as [He Ho];
        [lia | rewrite Nat2Z.id; exact Ha |].
      replace (length phi - S (2 * k + 1))%nat
        with (Z.to_nat (2 * (d - 1 - Z.of_nat k))) by lia.
      rewrite He.
      replace (2 * k + 1)%nat with (Z.to_nat (2 * Z.of_nat k + 1)) by lia.
      rewrite Ho. reflexivity.
  - rewrite !lookup_ge_None_2; [reflexivity | lia | rewrite length_reverse; lia].
Qed.

(** [delta] is read only when [gamma] is absent: with [gamma] supplied
    any two [delta]s give the same call. With [gamma] absent and [delta] a
    Python-float zero, line 68 raises ZeroDivisionError whatever [d] and
    [return_alpha] are, and the instance is untouched. With [delta] an
    [np.float64], zero included, line 68 raises nothing: for [d >= 0] the
    call returns a phase vector and stores the two fields. *)
Theorem generate_delta_only_without_gamma (self : instance F) d
    (delta delta' : option (scalar F)) (g : scalar F) (x : F)
    (return_alpha : bool) :
  generate self d delta (Some g) return_alpha =
    generate self d delta' (Some g) return_alpha /\
  (f_is_zero x = true ->
   generate self d (Some (PyFloat x)) None return_alpha =
     (self, Raise ZeroDivisionError)) /\
  ((0 <= d)%Z ->
   exists av phi,
     generate self d (Some (NpFloat64 x)) None false =
       ({| verbose := verbose self; avec := Some av;
           bvec := Some (map fneg (reverse av)) |},
        Return phi)).
Proof.
  split; [reflexivity|]. split.
  - intros Hz. unfold generate, gamma_of, py_recip, recip_raises. cbn.
    rewrite Hz. reflexivity.
  - intros Hd.
    destruct (generate_run self d (Some (NpFloat64 x)) None Hd)
      as (av & phi & Hgen & _); [reflexivity|].
    exists av, phi. exact Hgen.
Qed.

(** The edge [d <= 0], on arguments on which lines 68-69 raise nothing.
    Asked for alpha, the call returns the empty
    vector. Otherwise [d = 0] returns the empty phase vector, and [d < 0]
    raises ValueError at [np.zeros] after the two fields have been set to
    empty vectors. *)
Theorem generate_nonpositive_d (self : instance F) d
    (delta gamma : option (scalar F)) :
  (d <= 0)%Z ->
  args_usable delta gamma ->
  let stored :=
    {| verbose := verbose self; avec := Some []; bvec := Some [] |} in
  generate self d delta gamma true = (self, Return []) /\
  (d = 0%Z -> generate self d delta gamma false = (stored, Return [])) /\
  ((d < 0)%Z -> generate self d delta gamma false = (stored, Raise ValueError)).
Proof.
  intros Hd Hu stored. unfold generate.
  rewrite (sg_usable _ _ _ Hu).
  rewrite (seqZ_nil 1 d) by exact Hd. cbn [map reverse rev_append].
  split; [reflexivity|]. split.
  - intros ->. reflexivity.
  - intros Hneg. unfold np_zeros.
    rewrite bool_decide_eq_true_2 by lia. reflexivity.
Qed.

(** What a call returns or raises does not depend on the instance it is
    made on, and a second call with the same arguments leaves the instance
    as the first call left it. *)
Theorem generate_ignores_instance (self self' : instance F) d
    (delta gamma : option (scalar F)) (return_alpha : bool) :
  snd (generate self d delta gamma return_alpha) =
    snd (generate self' d delta gamma return_alpha) /\
  fst (generate (fst (generate self d delta gamma return_alpha))
         d delta gamma return_alpha) =
    fst (generate self d delta gamma return_alpha).
Proof.
  unfold generate.
  destruct (g ← gamma_of (2 * d + 1) delta gamma; sg_of g) as [sg|e];
    destruct return_alpha; split; reflexivity.
Qed.

End Facts.

Lemma generate_palindrome_witness :
  (0 <= 2)%Z /\ args_usable (F := R) None None /\
  exists phi : list R,
    snd (generate (init true) 2 None None false) = Return phi /\
    reverse phi = phi.
Proof.
  split; [lia|]. split; [exact default_args_usable|].
  apply (generate_palindrome (init true) 2 None None); [lia|].
  exact default_args_usable.
Defined.

Lemma generate_delta_only_without_gamma_witness :
  f_is_zero 0%R = true /\
  generate (init true) 3 (Some (PyFloat 0%R)) None false =
    (init true, Raise ZeroDivisionError).
Proof.
  assert (Hz : f_is_zero 0%R = true)
    by (apply bool_decide_eq_true_2; reflexivity).
  split; [exact Hz|].
  exact (proj1 (proj2 (generate_delta_only_without_gamma (init true) 3 None None
                         (PyFloat 0%R) 0%R false)) Hz).
Defined.

Lemma generate_nonpositive_d_witness :
  (-2 <= 0)%Z /\ args_usable (F := R) None None /\
  generate (F := R) (init true) (-2) None None false =
    ({| verbose := true; avec := Some []; bvec := Some [] |}, Raise ValueError).
Proof.
  split; [lia|]. split; [exact default_args_usable|].
  apply (generate_nonpositive_d (init true) (-2) None None); [lia | | lia].
  exact default_args_usable.
Defined.

End FPSearchMore.

(** ** erf_step: what is returned *)

Module ErfStepMore.

Import Phases.

(** [generate] returns exactly for [n = 7] and [n = 23], and what it
    returns has [n + 1] phases. *)
Theorem generate_returns_iff (n : Z) :
  ((exists phi, erf_step.generate n = Return phi) <-> n = 7%Z \/ n = 23%Z) /\
  (forall phi, erf_step.generate n = Return phi ->
     Z.of_nat (length phi) = (n + 1)%Z).
Proof.
  unfold erf_step.generate.
  destruct (Z.eqb_spec n 7) as [-> | H7]; [|destruct (Z.eqb_spec n 23) as [-> | H23]].
  - split; [split; [auto | eexists; reflexivity]|].
    intros phi [= <-]. reflexivity.
  - split; [split; [auto | eexists; reflexivity]|].
    intros phi [= <-]. reflexivity.
  - split; [split|].
    + intros [phi Hphi]. discriminate.
    + intros [? | ?]; contradiction.
    + intros phi Hphi. discriminate.
Qed.

Lemma generate_returns_iff_witness :
  erf_step.generate 23 = Return erf_step.phi_n23_erf /\
  Z.of_nat (length erf_step.phi_n23_erf) = 24%Z.
Proof.
  split; [reflexivity|].
  exact (proj2 (generate_returns_iff 23) erf_step.phi_n23_erf eq_refl).
Defined.

End ErfStepMore.

(** ** poly2chebyfn: the inverse direction, linearity, edges *)

Module ChebyMore.

Import Phases ChebyFacts.

Open Scope R_scope.

Lemma nth_poly_add (p q : list R) (i : nat) :
  nth i (poly_add p q) 0 = nth i p 0 + nth i q 0.
Proof.
  revert q i. induction p as [|a p IH]; intros [|b q] [|i]; cbn; try ring.
  apply IH.
Qed.

Lemma length_poly_add (p q : list R) :
  length (poly_add p q) = Nat.max (length p) (length q).
Proof.
  revert q. induction p as [|a p IH]; intros [|b q]; cbn; try reflexivity.
  rewrite IH. reflexivity.
Qed.

Lemma series_zero (basis : nat -> R -> R) (cs : list R) (x : R) :
  forall l,
    (forall j, (l <= j < l + length cs)%nat -> basis j x = 0) ->
    series basis l cs x = 0.
Proof.
  induction cs as [|c cs IH]; intros l Hz; cbn; [reflexivity|].
  rewrite (Hz l) by (cbn; lia).
  rewrite IH by (intros j Hj; apply Hz; cbn; lia). ring.
Qed.

Lemma series_linear (basis : nat -> R -> R) (a b : R) (x : R) :
  forall (cs ds : list R) l,
    length cs = length ds ->
    series basis l (zip_with (fun c d => a * c + b * d) cs ds) x =
    a * series basis l cs x + b * series basis l ds x.
Proof.
  induction cs as [|c cs IH]; intros [|d ds] l Hlen; cbn in *;
    try discriminate; [ring|].
  rewrite IH by congruence. ring.
Qed.

Lemma nth_zip_linear (a b : R) (P Q : list R) (i : nat) :
  length P = length Q ->
  nth i (zip_with (fun p q => a * p + b * q) P Q) 0 =
  a * nth i P 0 + b * nth i Q 0.
Proof.
  revert Q i. induction P as [|p P IH]; intros [|q Q] i Hlen; cbn in *;
    try discriminate.
  - destruct i; ring.
  - destruct i; [reflexivity|]. apply IH. congruence.
Qed.

Lemma map_Fin_inj (xs ys : list R) : map Fin xs = map Fin ys -> xs = ys.
Proof.
  revert ys. induction xs as [|x xs IH]; intros [|y ys] Heq; cbn in Heq;
    try discriminate; [reflexivity|].
  injection Heq as -> Hrest. f_equal. apply IH. exact Hrest.
Qed.

Section Sweep.

Variable cf : nat -> list R.
Hypothesis cf_length : forall l, length (cf l) = S l.
Hypothesis cf_lead : forall l, nth l (cf l) 0 <> 0.

(** The coefficient of [x^i] in [sum_j c_j * P_(l+j)]. *)
Local Notation "'coef' i l cs" := (series (fun j _ => nth i (cf j) 0) l cs 0)
  (at level 10, i, l, cs at level 9, only parsing).

Lemma nth_cheby2poly_from (cs : list R) (i : nat) :
  forall l, nth i (cheby2poly_from cf l cs) 0 = coef i l cs.
Proof.
  induction cs as [|c cs IH]; intros l; cbn.
  - destruct i; reflexivity.
  - rewrite nth_poly_add, nth_scale, IH. reflexivity.
Qed.

Lemma length_cheby2poly_from (cs : list R) :
  forall l, cs <> [] -> length (cheby2poly_from cf l cs) = (l + length cs)%nat.
Proof.
  induction cs as [|c cs IH]; intros l Hne; [contradiction|].
  cbn. rewrite length_poly_add, length_map, cf_length.
  destruct cs as [|c' cs]; [cbn; lia|].
  rewrite IH by discriminate. cbn. lia.
Qed.

(** The loop finds again the coefficients of a series: run on a [P]
    whose entries are those of [sum_(j < m) c_j * P_j], it appends
    [c_(m-1), ..., c_0]. *)
Lemma sweep_loop_series (deg : nat) (m : nat) : forall (cs P C : list R),
  length cs = m -> (m <= S deg)%nat -> length P = S deg ->
  (forall i, nth i P 0 = coef i 0 cs) ->
  exists st,
    for_each (sweep_step (Some cf) deg) (reverse (seq 0 m)) (map Fin P, map Fin C)
      = Return st /\
    snd st = map Fin (C ++ reverse cs).
Proof.
  induction m as [|l IH]; intros cs P C Hcs Hm HP Hcoef.
  - destruct cs; [|discriminate].
    exists (map Fin P, map Fin C). rewrite app_nil_r. split; reflexivity.
  - destruct (decide (cs = [])) as [->|Hne]; [discriminate|].
    destruct (exists_last Hne) as (cs' & c & ->).
    rewrite length_app in Hcs. cbn in Hcs.
    assert (Hcs' : length cs' = l) by lia.
    rewrite reverse_seq_S. cbn [for_each].
    destruct (sweep_step_fin cf cf_length cf_lead deg l P C) as (P1 & Hstep & HP1 & Hnth & _);
      [lia | exact HP |].
    assert (Hq : nth l P 0 / nth l (cf l) 0 = c).
    { rewrite (Hcoef l), series_snoc, Hcs'.
      rewrite series_zero
        by (intros j Hj; apply nth_overflow; rewrite cf_length; lia).
      cbn. field. apply cf_lead. }
    rewrite Hstep, Hq. cbn [mbind outcome_bind].
    destruct (IH cs' P1 (C ++ [c])) as (st & Hrun & Hsnd);
      [exact Hcs' | lia | exact HP1 | |].
    { intros i. rewrite Hnth, Hq, (Hcoef i), series_snoc, Hcs'. cbn. ring. }
    exists st. split; [exact Hrun|].
    rewrite Hsnd, reverse_app, <- app_assoc. reflexivity.
Qed.

(** As [sweep_loop_fin], with the identity stated coefficient by
    coefficient. *)
Lemma sweep_loop_coeffs (deg : nat) (m : nat) : forall P C : list R,
  (m <= S deg)%nat -> length P = S deg ->
  (forall i, (m <= i)%nat -> nth i P 0 = 0) ->
  exists (cs : list R) (st : list npfloat * list npfloat),
    for_each (sweep_step (Some cf) deg) (reverse (seq 0 m)) (map Fin P, map Fin C)
      = Return st /\
    snd st = map Fin (C ++ reverse cs) /\
    length cs = m /\
    forall i, nth i P 0 = coef i 0 cs.
Proof.
  induction m as [|l IH]; intros P C Hm HP Hzero.
  - exists [], (map Fin P, map Fin C). cbn.
    split; [reflexivity|]. split; [rewrite app_nil_r; reflexivity|].
    split; [reflexivity|]. intros i. apply Hzero. lia.
  - rewrite reverse_seq_S. cbn [for_each].
    destruct (sweep_step_fin cf cf_length cf_lead deg l P C) as (P1 & Hstep & HP1 & Hnth & _);
      [lia | exact HP |].
    rewrite Hstep. cbn [mbind outcome_bind].
    destruct (IH P1 (C ++ [nth l P 0 / nth l (cf l) 0]))
      as (cs & st & Hrun & Hsnd & Hlen & Hser); [lia | exact HP1 | |].
    { intros i Hi. rewrite Hnth.
      destruct (decide (i = l)) as [->|Hne].
      - field. apply cf_lead.
      - rewrite (Hzero i) by lia.
        rewrite (@nth_overflow _ (cf l) i 0) by (rewrite cf_length; lia). ring. }
    exists (cs ++ [nth l P 0 / nth l (cf l) 0]), st.
    split; [exact Hrun|]. split.
    { rewrite Hsnd, reverse_app, <- app_assoc. reflexivity. }
    split; [rewrite length_app; cbn; lia|].
    intros i. rewrite series_snoc, <- Hser, Hnth, Hlen. cbn. ring.
Qed.

Lemma cheby_sweep_series (cs P : list R) :
  length P = length cs ->
  (forall i, nth i P 0 = coef i 0 cs) ->
  cheby_sweep (Some cf) (map Fin P) = Return (map Fin cs).
Proof.
  intros Hlen Hcoef. unfold cheby_sweep. rewrite length_map.
  destruct P as [|p0 P'] eqn:HP.
  - destruct cs; [reflexivity | discriminate].
  - rewrite <- HP in *.
    assert (HlenP : length P = S (length P')) by (subst; reflexivity).
    rewrite HlenP. replace (S (length P') - 1)%nat with (length P') by lia.
    destruct (sweep_loop_series (length P') (S (length P')) cs P [])
      as (st & Hrun & Hsnd); [lia | lia | exact HlenP | exact Hcoef |].
    change (map Fin []) with (@nil npfloat) in Hrun.
    rewrite Hrun. cbn [mbind outcome_bind]. rewrite Hsnd. cbn [app].
    rewrite <- fmap_reverse, reverse_involutive. reflexivity.
Qed.

Lemma cheby_sweep_coeffs (P : list R) :
  exists cs : list R,
    cheby_sweep (Some cf) (map Fin P) = Return (map Fin cs) /\
    length cs = length P /\
    forall i, nth i P 0 = coef i 0 cs.
Proof.
  unfold cheby_sweep. rewrite length_map.
  destruct P as [|p0 P'] eqn:HP.
  - exists []. split; [reflexivity|]. split; [reflexivity|].
    intros i. destruct i; reflexivity.
  - rewrite <- HP in *.
    assert (HlenP : length P = S (length P')) by (subst; reflexivity).
    rewrite HlenP. replace (S (length P') - 1)%nat with (length P') by lia.
    destruct (sweep_loop_coeffs (length P') (S (length P')) P [])
      as (cs & st & Hrun & Hsnd & Hcs & Hser); [lia | exact HlenP | |].
    { intros i Hi. apply nth_overflow. lia. }
    change (map Fin []) with (@nil npfloat) in Hrun.
    exists cs. rewrite Hrun. cbn [mbind outcome_bind]. rewrite Hsnd. cbn [app].
    rewrite <- fmap_reverse, reverse_involutive.
    split; [reflexivity|]. split; [exact Hcs | exact Hser].
Qed.

End Sweep.

Lemma poly2chebyfn_coeffs (k : cheb_kind) (P : list R) :
  exists cs : list R,
    poly2chebyfn (map Fin P) (kind_tag k) = Return (map Fin cs) /\
    length cs = length P /\
    forall i, nth i P 0 = series (fun j _ => nth i (table k j) 0) 0 cs 0.
Proof.
  unfold poly2chebyfn. rewrite cfunc_of_kind.
  apply cheby_sweep_coeffs; [apply table_length | apply table_lead].
Qed.

Lemma poly2chebyfn_series (k : cheb_kind) (cs P : list R) :
  length P = length cs ->
  (forall i, nth i P 0 = series (fun j _ => nth i (table k j) 0) 0 cs 0) ->
  poly2chebyfn (map Fin P) (kind_tag k) = Return (map Fin cs).
Proof.
  intros Hlen Hcoef. unfold poly2chebyfn. rewrite cfunc_of_kind.
  apply cheby_sweep_series; [apply table_length | apply table_lead | exact Hlen | exact Hcoef].
Qed.

(** Expanding a Chebyshev series into powers and converting back gives
    the coefficients one started from. *)
Theorem poly2chebyfn_cheby2poly (k : cheb_kind) (cs : list R) :
  poly2chebyfn (map Fin (cheby2poly k cs)) (kind_tag k) = Return (map Fin cs).
Proof.
  apply poly2chebyfn_series.
  - destruct cs as [|c cs]; [reflexivity|].
    unfold cheby2poly. rewrite length_cheby2poly_from by (apply table_length || discriminate).
    reflexivity.
  - intros i. apply nth_cheby2poly_from.
Qed.

(** The conversion followed by the expansion gives back the coefficient
    sequence itself, entry by entry. *)
Theorem cheby2poly_poly2chebyfn (k : cheb_kind) (pcoefs : list R) :
  exists cs : list R,
    poly2chebyfn (map Fin pcoefs) (kind_tag k) = Return (map Fin cs) /\
    cheby2poly k cs = pcoefs.
Proof.
  destruct (poly2chebyfn_coeffs k pcoefs) as (cs & Hrun & Hlen & Hcoef).
  exists cs. split; [exact Hrun|].
  apply nth_ext with (d := 0) (d' := 0).
  - destruct cs as [|c cs]; [destruct pcoefs; [reflexivity | discriminate]|].
    unfold cheby2poly. rewrite length_cheby2poly_from by (apply table_length || discriminate).
    exact Hlen.
  - intros i _. unfold cheby2poly. rewrite nth_cheby2poly_from. symmetry. apply Hcoef.
Qed.

(** The conversion is linear: on two coefficient arrays of one length,
    [a * P + b * Q] has the coefficients [a * C_P + b * C_Q]. *)
Theorem poly2chebyfn_linear (k : cheb_kind) (a b : R) (P Q cs ds : list R) :
  length P = length Q ->
  poly2chebyfn (map Fin P) (kind_tag k) = Return (map Fin cs) ->
  poly2chebyfn (map Fin Q) (kind_tag k) = Return (map Fin ds) ->
  poly2chebyfn (map Fin (zip_with (fun p q => a * p + b * q) P Q)) (kind_tag k) =
    Return (map Fin (zip_with (fun c d => a * c + b * d) cs ds)).
Proof.
  intros Hlen HP HQ.
  destruct (poly2chebyfn_coeffs k P) as (cs' & HP' & Hcs & HcP).
  destruct (poly2chebyfn_coeffs k Q) as (ds' & HQ' & Hds & HcQ).
  rewrite HP in HP'. injection HP' as HP'. apply map_Fin_inj in HP'. subst cs'.
  rewrite HQ in HQ'. injection HQ' as HQ'. apply map_Fin_inj in HQ'. subst ds'.
  apply poly2chebyfn_series.
  - rewrite !length_zip_with. lia.
  - intros i. rewrite nth_zip_linear by exact Hlen.
    rewrite series_linear by lia. rewrite <- HcP, <- HcQ. reflexivity.
Qed.

(** Zero coefficients appended to the input come out as zero coefficients
    appended to the result. *)
Theorem poly2chebyfn_zero_padding (k : cheb_kind) (n : nat) (P cs : list R) :
  poly2chebyfn (map Fin P) (kind_tag k) = Return (map Fin cs) ->
  poly2chebyfn (map Fin (P ++ replicate n 0)) (kind_tag k) =
    Return (map Fin (cs ++ replicate n 0)).
Proof.
  intros HP.
  destruct (poly2chebyfn_coeffs k P) as (cs' & HP' & Hcs & HcP).
  rewrite HP in HP'. injection HP' as HP'. apply map_Fin_inj in HP'. subst cs'.
  apply poly2chebyfn_series.
  - rewrite !length_app, !length_replicate. lia.
  - intros i. rewrite nth_app_zeros, HcP. clear.
    induction n as [|n IH]; [rewrite app_nil_r; reflexivity|].
    replace (replicate (S n) 0) with (replicate n 0 ++ [0])
      by (rewrite <- replicate_cons_app; reflexivity).
    rewrite app_assoc, series_snoc, <- IH. ring.
Qed.

(** *** Entries that are not finite, and kinds that are not known *)

Lemma zip_sub_nonfin (P : list npfloat) (Q : list R) :
  length P = length Q ->
  zip_with np_sub P (map (np_scale NonFin) Q) = replicate (length P) NonFin.
Proof.
  revert Q. induction P as [|p P IH]; intros [|t Q] Hlen; cbn in *;
    try discriminate; [reflexivity|].
  rewrite IH by congruence. destruct p; reflexivity.
Qed.

Section AnyEntries.

Variable cf : nat -> list R.
Hypothesis cf_length : forall l, length (cf l) = S l.

Lemma sweep_step_any (deg l : nat) (P C : list npfloat) :
  (l <= deg)%nat -> length P = S deg ->
  exists r c,
    P !! l = Some r /\
    sweep_step (Some cf) deg l (P, C) =
      Return (zip_with np_sub P
                (map (np_scale (np_div r c)) (cf l ++ replicate (deg - l) 0)),
              C ++ [np_div r c]).
Proof.
  intros Hl HP.
  destruct (lookup_lt_is_Some_2 P l) as [r Hr]; [lia|].
  destruct (lookup_lt_is_Some_2 (cf l) l) as [c Hc]; [rewrite cf_length; lia|].
  exists r, c. split; [exact Hr|].
  unfold sweep_step. rewrite Hr. cbn [mbind outcome_bind or_raise].
  rewrite (getitem_nonneg (cf l) _ c);
    [| rewrite cf_length; lia
     | rewrite cf_length; replace (Z.to_nat _) with l by lia; exact Hc].
  cbn [mbind outcome_bind].
  rewrite np_broadcast_same_length; [reflexivity|].
  rewrite length_map, length_app, cf_length, length_replicate. lia.
Qed.

(** Whatever the entries of [P] are, the loop ends without raising and
    appends one coefficient per degree. *)
Lemma sweep_loop_any (deg : nat) (m : nat) : forall P C : list npfloat,
  (m <= S deg)%nat -> length P = S deg ->
  exists st,
    for_each (sweep_step (Some cf) deg) (reverse (seq 0 m)) (P, C) = Return st /\
    length (snd st) = (length C + m)%nat.
Proof.
  induction m as [|l IH]; intros P C Hm HP.
  - exists (P, C). split; [reflexivity | cbn; lia].
  - rewrite reverse_seq_S. cbn [for_each].
    destruct (sweep_step_any deg l P C) as (r & c & _ & Hstep); [lia | exact HP |].
    rewrite Hstep. cbn [mbind outcome_bind].
    destruct (IH (zip_with np_sub P
                    (map (np_scale (np_div r c)) (cf l ++ replicate (deg - l) 0)))
                 (C ++ [np_div r c])) as (st & Hrun & Hlen); [lia | |].
    { rewrite length_zip_with, length_map, length_app, cf_length, length_replicate. lia. }
    exists st. split; [exact Hrun|].
    rewrite Hlen, length_app. cbn. lia.
Qed.

(** Once every entry of [P] is inf or nan, every coefficient appended from
    then on is. *)
Lemma sweep_loop_nonfin (deg : nat) (m : nat) : forall C : list npfloat,
  (m <= S deg)%nat ->
  for_each (sweep_step (Some cf) deg) (reverse (seq 0 m))
    (replicate (S deg) NonFin, C) =
  Return (replicate (S deg) NonFin, C ++ replicate m NonFin).
Proof.
  induction m as [|l IH]; intros C Hm.
  - cbn. rewrite app_nil_r. reflexivity.
  - rewrite reverse_seq_S. cbn [for_each].
    destruct (sweep_step_any deg l (replicate (S deg) NonFin) C)
      as (r & c & Hr & Hstep); [lia | apply length_replicate |].
    apply lookup_replicate in Hr as [-> _].
    rewrite Hstep. cbn [mbind outcome_bind np_div].
    rewrite zip_sub_nonfin
      by (rewrite length_app, cf_length, !length_replicate; lia).
    rewrite length_replicate, IH by lia.
    rewrite <- app_assoc. reflexivity.
Qed.

Lemma cheby_sweep_any (pcoefs : list npfloat) :
  exists cs,
    cheby_sweep (Some cf) pcoefs = Return cs /\ length cs = length pcoefs.
Proof.
  unfold cheby_sweep.
  destruct pcoefs as [|p0 P'] eqn:HP.
  - exists []. split; reflexivity.
  - rewrite <- HP.
    assert (Hlen : length pcoefs = S (length P')) by (subst; reflexivity).
    rewrite Hlen. replace (S (length P') - 1)%nat with (length P') by lia.
    destruct (sweep_loop_any (length P') (S (length P')) pcoefs [])
      as (st & Hrun & Hst); [lia | exact Hlen |].
    exists (reverse (snd st)). rewrite Hrun. split; [reflexivity|].
    rewrite length_reverse, Hst. reflexivity.
Qed.

Lemma cheby_sweep_nonfin_lead (P : list npfloat) :
  cheby_sweep (Some cf) (P ++ [NonFin]) =
    Return (replicate (S (length P)) NonFin).
Proof.
  unfold cheby_sweep. rewrite length_app. cbn [length].
  replace (length P + 1)%nat with (S (length P)) by lia.
  replace (S (length P) - 1)%nat with (length P) by lia.
  rewrite reverse_seq_S. cbn [for_each].
  destruct (sweep_step_any (length P) (length P) (P ++ [NonFin]) [])
    as (r & c & Hr & Hstep); [lia | rewrite length_app; cbn; lia |].
  rewrite lookup_app_r, Nat.sub_diag in Hr by lia. injection Hr as <-.
  rewrite Hstep. cbn [mbind outcome_bind np_div].
  rewrite zip_sub_nonfin
    by (rewrite !length_app, cf_length, length_replicate; cbn; lia).
  rewrite length_app. cbn [length].
  replace (length P + 1)%nat with (S (length P)) by lia.
  rewrite sweep_loop_nonfin by lia. cbn [mbind outcome_bind snd app].
  rewrite <- replicate_S. apply (f_equal Return), reverse_replicate.
Qed.

End AnyEntries.

(** For kind T and U the conversion never raises, whatever the entries of
    the input are (inf and nan included), and returns as many coefficients
    as it was given. *)
Theorem poly2chebyfn_never_raises (k : cheb_kind) (pcoefs : list npfloat) :
  exists cs,
    poly2chebyfn pcoefs (kind_tag k) = Return cs /\
    length cs = length pcoefs.
Proof.
  unfold poly2chebyfn. rewrite cfunc_of_kind.
  apply cheby_sweep_any, table_length.
Qed.

(** An inf or nan as the coefficient of the highest power turns every
    returned coefficient into inf or nan. *)
Theorem poly2chebyfn_nonfinite_lead (k : cheb_kind) (P : list npfloat) :
  poly2chebyfn (P ++ [NonFin]) (kind_tag k) =
    Return (replicate (S (length P)) NonFin).
Proof.
  unfold poly2chebyfn. rewrite cfunc_of_kind.
  apply cheby_sweep_nonfin_lead, table_length.
Qed.

(** An empty input returns the empty list for every [kind], also one that
    is neither T nor U; a non-empty input with such a kind raises
    UnboundLocalError at the first use of [cfunc]. *)
Theorem poly2chebyfn_unbound_cfunc (kind : string) (p : npfloat) (P : list npfloat) :
  poly2chebyfn [] kind = Return [] /\
  (kind <> "T" -> kind <> "U" ->
   poly2chebyfn (p :: P) kind = Raise UnboundLocalError).
Proof.
  split; [reflexivity|].
  intros HT HU. unfold poly2chebyfn, cfunc_of.
  apply String.eqb_neq in HT, HU. rewrite HT, HU.
  unfold cheby_sweep. cbn [length]. rewrite reverse_seq_S. cbn [for_each].
  unfold sweep_step.
  destruct (lookup_lt_is_Some_2 (p :: P) (length P)) as [r Hr]; [cbn; lia|].
  rewrite Hr. reflexivity.
Qed.

Lemma poly2chebyfn_linear_witness :
  length [0; 1] = length [1; 0] /\
  poly2chebyfn (map Fin [0; 1]) "T" = Return (map Fin [0; 1]) /\
  poly2chebyfn (map Fin [1; 0]) "T" = Return (map Fin [1; 0]) /\
  poly2chebyfn (map Fin (zip_with (fun p q => 2 * p + 3 * q) [0; 1] [1; 0])) "T" =
    Return (map Fin (zip_with (fun c d => 2 * c + 3 * d) [0; 1] [1; 0])).
Proof.
  assert (H1 : poly2chebyfn (map Fin [0; 1]) "T" = Return (map Fin [0; 1])).
  { apply (poly2chebyfn_series KindT); [reflexivity|].
    intros [|[|i]]; cbn; try ring; destruct i; cbn; ring. }
  assert (H2 : poly2chebyfn (map Fin [1; 0]) "T" = Return (map Fin [1; 0])).
  { apply (poly2chebyfn_series KindT); [reflexivity|].
    intros [|[|i]]; cbn; try ring; destruct i; cbn; ring. }
  split; [reflexivity|]. split; [exact H1|]. split; [exact H2|].
  exact (poly2chebyfn_linear KindT 2 3 [0; 1] [1; 0] [0; 1] [1; 0] eq_refl H1 H2).
Defined.

Lemma poly2chebyfn_zero_padding_witness :
  poly2chebyfn (map Fin [0; 1]) "T" = Return (map Fin [0; 1]) /\
  poly2chebyfn (map Fin ([0; 1] ++ replicate 2 0)) "T" =
    Return (map Fin ([0; 1] ++ replicate 2 0)).
Proof.
  assert (H1 : poly2chebyfn (map Fin [0; 1]) "T" = Return (map Fin [0; 1])).
  { apply (poly2chebyfn_series KindT); [reflexivity|].
    intros [|[|i]]; cbn; try ring; destruct i; cbn; ring. }
  split; [exact H1|].
  exact (poly2chebyfn_zero_padding KindT 2 [0; 1] [0; 1] H1).
Defined.

Lemma poly2chebyfn_unbound_cfunc_witness :
  "V" <> "T" /\ "V" <> "U" /\
  poly2chebyfn [Fin 1; Fin 2] "V" = Raise UnboundLocalError.
Proof.
  split; [discriminate|]. split; [discriminate|].
  apply (proj2 (poly2chebyfn_unbound_cfunc "V" (Fin 1) [Fin 2])); discriminate.
Defined.

End ChebyMore.

(** ** poly2chebyfn: a zero leading coefficient *)

Module ChebyZeroLead.

Import Phases ChebyFacts ChebyMore.

Open Scope R_scope.

Lemma poly2chebyfn_with_scipy (pcoefs : list npfloat) (kind : string) :
  poly2chebyfn_with chebyt_coef chebyu_coef pcoefs kind = poly2chebyfn pcoefs kind.
Proof. reflexivity. Qed.



Section ZeroLead.

Variable cf : nat -> list R.
Hypothesis cf_length : forall l, length (cf l) = S l.




End ZeroLead.





End ChebyZeroLead.

(** ** B and C: the half-angle functions *)

Module SqrtFacts.

Import Phases Phases.Sqrt.

Open Scope R_scope.

Lemma np_sqrt_real_nonneg (x : R) :
  0 <= x ->
  np_sqrt_real x = Fin (R_sqrt.sqrt x) /\
  0 <= R_sqrt.sqrt x /\ R_sqrt.sqrt x * R_sqrt.sqrt x = x.
Proof.
  intros Hx. unfold np_sqrt_real.
  destruct (Rlt_dec x 0) as [Hneg|_]; [lra|].
  split; [reflexivity|]. split; [apply sqrt_pos | apply sqrt_sqrt; exact Hx].
Qed.

Lemma np_sqrt_real_neg (x : R) : x < 0 -> np_sqrt_real x = NonFin.
Proof.
  intros Hx. unfold np_sqrt_real.
  destruct (Rlt_dec x 0) as [_|Hge]; [reflexivity | contradiction].
Qed.

Lemma np_recip_pos (c : R) : 0 < c -> np_recip (Fin c) = Fin (1 / c).
Proof.
  intros Hc. unfold np_recip, np_div.
  rewrite decide_False by lra. reflexivity.
Qed.

(** What [B] computes on [-1, 1]: the numbers [u] and [b] with
    [u^2 = (1 + x) / 2] and [b^2 = (1 + u) / 2]. *)
Lemma B_value (x : R) :
  -1 <= x <= 1 ->
  exists u b,
    np_sqrt_real ((1 + x) / 2) = Fin u /\ B x = Fin b /\
    0 <= u <= 1 /\ 0 <= b <= 1 /\
    u * u = (1 + x) / 2 /\ b * b = (1 + u) / 2.
Proof.
  intros Hx.
  destruct (np_sqrt_real_nonneg ((1 + x) / 2)) as (Hu & Hu0 & Huu); [lra|].
  set (u := R_sqrt.sqrt ((1 + x) / 2)) in *.
  assert (Hu1 : u <= 1) by nra.
  destruct (np_sqrt_real_nonneg (0.5 + 0.5 * u)) as (Hb & Hb0 & Hbb); [lra|].
  set (b := R_sqrt.sqrt (0.5 + 0.5 * u)) in *.
  exists u, b. unfold B. rewrite Hu.
  split; [reflexivity|]. split; [exact Hb|].
  split; [lra|]. split; [nra|]. split; [exact Huu | lra].
Qed.

(** On [-1, 1], [B] is finite, lies in [0, 1], satisfies the half-angle
    identity [2 B(x)^2 - 1 = sqrt((1 + x) / 2)], and inverts the Chebyshev
    polynomial of degree 4: [T_4(B(x)) = x]. *)
Theorem B_inverts_T4 (x : R) :
  -1 <= x <= 1 ->
  exists b,
    B x = Fin b /\ 0 <= b <= 1 /\
    2 * b * b - 1 = R_sqrt.sqrt ((1 + x) / 2) /\
    chebyshev KindT 4 b = x.
Proof.
  intros Hx. destruct (B_value x Hx) as (u & b & Hu & Hb & Hur & Hbr & Huu & Hbb).
  exists b. split; [exact Hb|]. split; [exact Hbr|].
  assert (Hsq : np_sqrt_real ((1 + x) / 2) = Fin (R_sqrt.sqrt ((1 + x) / 2)))
    by (apply np_sqrt_real_nonneg; lra).
  rewrite Hu in Hsq. injection Hsq as <-.
  split; [nra|].
  unfold chebyshev. cbn.
  replace (2 * b * (2 * b * (2 * b * b - 1) - b) - (2 * b * b - 1))
    with (2 * (2 * (b * b) - 1) * (2 * (b * b) - 1) - 1) by ring.
  rewrite Hbb.
  replace (2 * (2 * ((1 + u) / 2) - 1) * (2 * ((1 + u) / 2) - 1) - 1)
    with (2 * (u * u) - 1) by field.
  rewrite Huu. field.
Qed.

(** On (-1, 1], [C] is finite and is the reciprocal of the Chebyshev
    polynomial of the second kind of degree 3 at [B(x)]:
    [C(x) * U_3(B(x)) = 1]. *)
Theorem C_is_reciprocal_U3 (x : R) :
  -1 < x <= 1 ->
  exists b c,
    B x = Fin b /\ C x = Fin c /\ c * chebyshev KindU 3 b = 1.
Proof.
  intros Hx.
  destruct (B_value x) as (u & b & Hu & Hb & Hur & Hbr & Huu & Hbb); [lra|].
  assert (Hupos : 0 < u) by nra.
  assert (Hbpos : 0 < b) by nra.
  destruct (np_sqrt_real_nonneg (1 + x)) as (Hs1 & Hs10 & Hs11); [lra|].
  set (s1 := R_sqrt.sqrt (1 + x)) in *.
  destruct (np_sqrt_real_nonneg (1 + u)) as (Hs2 & Hs20 & Hs22); [lra|].
  set (s2 := R_sqrt.sqrt (1 + u)) in *.
  assert (Hs1pos : 0 < s1) by nra.
  assert (Hs2pos : 0 < s2) by nra.
  assert (Hprod : s1 * s2 = 2 * b * u).
  { apply Rsqr_inj; [nra | nra |]. unfold Rsqr.
    replace (s1 * s2 * (s1 * s2)) with ((s1 * s1) * (s2 * s2)) by ring.
    rewrite Hs11, Hs22.
    replace (2 * b * u * (2 * b * u)) with (4 * (b * b) * (u * u)) by ring.
    rewrite Hbb, Huu. field. }
  exists b, (0.5 * (1 / s1) * (1 / s2)). split; [exact Hb|]. split.
  - unfold C. rewrite Hs1, Hu, Hs2, !np_recip_pos by assumption. reflexivity.
  - unfold chebyshev. cbn.
    replace 0.5 with (1 / 2) by lra.
    replace (1 / 2 * (1 / s1) * (1 / s2) * (2 * b * (2 * b * (2 * b) - 1) - 2 * b))
      with ((4 * (b * b) - 2) * (2 * b) / (2 * (s1 * s2)))
      by (field; lra).
    rewrite Hprod, Hbb. field. lra.
Qed.

(** Below the domain: at [x = -1] the first division of [C] is by zero,
    and for [x < -1] the square roots are of negative numbers; [C] is then
    inf or nan, and for [x < -1] so is [B]. Nothing is raised. *)
Theorem B_C_below_domain (x : R) :
  x <= -1 ->
  C x = NonFin /\ (x < -1 -> B x = NonFin).
Proof.
  intros Hx. split.
  - unfold C. destruct (Rle_lt_or_eq_dec x (-1) Hx) as [Hlt | ->].
    + rewrite (np_sqrt_real_neg (1 + x)) by lra. reflexivity.
    + replace (1 + -1) with 0 by ring.
      destruct (np_sqrt_real_nonneg 0) as (-> & _ & _); [lra|].
      rewrite sqrt_0. unfold np_recip, np_div.
      rewrite decide_True by reflexivity. reflexivity.
  - intros Hlt. unfold B. rewrite np_sqrt_real_neg by lra. reflexivity.
Qed.

Lemma B_inverts_T4_witness :
  -1 <= 0 <= 1 /\ exists b, B 0 = Fin b /\ chebyshev KindT 4 b = 0.
Proof.
  assert (H0 : -1 <= 0 <= 1) by lra.
  split; [exact H0|].
  destruct (B_inverts_T4 0 H0) as (b & Hb & _ & _ & HT).
  exists b. split; [exact Hb | exact HT].
Defined.

Lemma C_is_reciprocal_U3_witness :
  -1 < 0 <= 1 /\
  exists b c, B 0 = Fin b /\ C 0 = Fin c /\ c * chebyshev KindU 3 b = 1.
Proof.
  assert (H0 : -1 < 0 <= 1) by lra.
  split; [exact H0|]. exact (C_is_reciprocal_U3 0 H0).
Defined.

Lemma B_C_below_domain_witness : -1 <= -1 /\ C (-1) = NonFin.
Proof.
  assert (H0 : -1 <= -1) by lra.
  split; [exact H0|]. exact (proj1 (B_C_below_domain (-1) H0)).
Defined.

End SqrtFacts.

(** ** ComputeQSPResponse: when it returns, and how samples compose *)

Module ResponseMore.

Import Response ResponseFacts.

Section Facts.

Context {F C : Type} {float64 : Float64 F} {complex128 : Complex128 F C}.

Implicit Types (adat : list (scalar F)) (phiset : list F) (pdat : list C)
  (cfg : config F C) (signal_operator : string) (measurement : option string).

Lemma configure_returns_valid signal_operator measurement cfg :
  configure signal_operator measurement = Return cfg ->
  valid_config signal_operator measurement.
Proof.
  unfold configure, valid_config, default_measurement.
  destruct (String.eqb_spec signal_operator "Wx") as [-> | Hx].
  - destruct measurement as [m|]; [|intros _; split; auto].
    cbn. destruct (String.eqb_spec m "x") as [-> | Hmx]; [intros _; split; auto|].
    destruct (String.eqb_spec m "z") as [-> | Hmz]; [intros _; split; auto|].
    discriminate.
  - destruct (String.eqb_spec signal_operator "Wz") as [-> | Hz]; [|discriminate].
    destruct measurement as [m|]; [|intros _; split; auto].
    cbn. destruct (String.eqb_spec m "x") as [-> | Hmx]; [intros _; split; auto|].
    destruct (String.eqb_spec m "z") as [-> | Hmz]; [intros _; split; auto|].
    discriminate.
Qed.

Lemma configure_raises_ResponseError signal_operator measurement (e : exn) :
  configure (F := F) (C := C) signal_operator measurement = Raise e ->
  exists msg, e = ResponseError msg.
Proof.
  unfold configure.
  destruct (String.eqb signal_operator "Wx"), (String.eqb signal_operator "Wz");
    cbn; try (intros [= <-]; eexists; reflexivity);
    destruct (default_measurement signal_operator measurement) as [m|];
    try (intros [= <-]; eexists; reflexivity);
    destruct (String.eqb m "x"), (String.eqb m "z");
    try discriminate; intros [= <-]; eexists; reflexivity.
Qed.

Lemma sig_op_accepts cfg (Wf : scalar F -> mat2 C) adat :
  (forall a, sig_op cfg a =
               if pow_raises a 2 then Raise OverflowError else Return (Wf a)) ->
  Forall sample_ok adat ->
  Forall (fun a => sig_op cfg a = Return (Wf a)) adat.
Proof.
  intros HWf Hok. eapply Forall_impl; [exact Hok|]. intros a Ha. cbn beta.
  rewrite HWf. unfold sample_ok in Ha. rewrite Ha. reflexivity.
Qed.

(** Either [sig_op] accepts every sample, or there is a first one whose
    square overflows. *)
Lemma first_overflow_split adat :
  Forall sample_ok adat \/
  exists pre a post,
    adat = pre ++ a :: post /\ Forall sample_ok pre /\ pow_raises a 2 = true.
Proof.
  induction adat as [|b adat IH]; [left; constructor|].
  destruct (pow_raises b 2) eqn:Hb.
  - right. exists [], b, adat. split; [reflexivity|]. split; [constructor | exact Hb].
  - destruct IH as [Hall | (pre & a & post & -> & Hpre & Ha)].
    + left. constructor; assumption.
    + right. exists (b :: pre), a, post.
      split; [reflexivity|]. split; [constructor; assumption | exact Ha].
Qed.

(** [ComputeQSPResponse] returns exactly when the configuration is
    accepted and either there is no sample, or there is a phase and no
    sample is a Python float whose square overflows. What it returns
    carries the inputs [adat] and [phiset], one response per sample and the
    model pair in force. What it raises is ResponseError or IndexError with
    [pdat] still empty, or OverflowError at the first sample whose square
    overflows, with one response computed for each sample before it when
    there is a phase. *)
Theorem ComputeQSPResponse_returns_iff adat phiset signal_operator measurement :
  let call := ComputeQSPResponse (C := C) adat phiset signal_operator measurement in
  ((exists ret, call = Returned ret) <->
   valid_config signal_operator measurement /\
   (adat = [] \/ (phiset <> [] /\ Forall sample_ok adat))) /\
  (forall ret, call = Returned ret ->
     ret_adat ret = adat /\ ret_phiset ret = phiset /\
     length (ret_pdat ret) = length adat /\
     fst (ret_model ret) = signal_operator /\
     default_measurement signal_operator measurement = Some (snd (ret_model ret))) /\
  (forall e pdat, call = Raised e pdat ->
     (pdat = [] /\ (e = IndexError \/ exists msg, e = ResponseError msg)) \/
     (e = OverflowError /\
      exists pre a post,
        adat = pre ++ a :: post /\ Forall sample_ok pre /\ ~ sample_ok a /\
        length pdat = length pre /\ (phiset = [] -> pre = []))).
Proof.
  cbv zeta. unfold ComputeQSPResponse.
  destruct (configure signal_operator measurement) as [cfg|e] eqn:Hcfg.
  - pose proof (configure_returns_valid _ _ _ Hcfg) as Hvalid.
    destruct (configure_valid (F := F) (C := C) _ _ Hvalid) as (cfg' & Hcfg' & Hdef & Hso).
    rewrite Hcfg in Hcfg'. injection Hcfg' as <-.
    destruct (configure_sig_op _ _ _ Hcfg) as [Wf HWf].
    destruct phiset as [|phi0 rest].
    + destruct adat as [|a adat].
      * cbn. split; [split; [auto | eexists; reflexivity]|].
        split; [intros ret [= <-]; cbn; auto | discriminate].
      * cbn [map]. rewrite sample_loop_no_phase, HWf.
        split; [split; [intros [ret Hret]; discriminate |
                        intros [_ [? | [? _]]]; [discriminate | contradiction]]|].
        split; [discriminate|]. intros e pdat [= <- <-].
        destruct (pow_raises a 2) eqn:Ha; [right | left; auto].
        split; [reflexivity|]. exists [], a, adat.
        split; [reflexivity|]. split; [constructor|].
        split; [unfold sample_ok; rewrite Ha; discriminate|].
        split; reflexivity.
    + cbn [map].
      destruct (first_overflow_split adat)
        as [Hall | (pre & a & post & -> & Hpre & Ha)].
      * rewrite (sample_loop_nonempty cfg Wf)
          by (apply sig_op_accepts; assumption).
        cbn [app].
        split; [split; [intros _; split; [exact Hvalid | right; split;
                                            [discriminate | exact Hall]]
                       | eexists; reflexivity]|].
        split; [|discriminate].
        intros ret [= <-]. cbn. rewrite length_map. auto.
      * assert (Hna : ~ sample_ok a)
          by (unfold sample_ok; rewrite Ha; discriminate).
        rewrite (sample_loop_raise cfg Wf _ _ pre a post OverflowError);
          [| apply sig_op_accepts; assumption | rewrite HWf, Ha; reflexivity].
        cbn [app].
        split; [split; [intros [ret Hret]; discriminate|]|].
        { intros [_ [Hnil | [_ Hall]]].
          - destruct pre; discriminate.
          - apply Forall_app in Hall as [_ Hall].
            inversion Hall; subst. contradiction. }
        split; [discriminate|]. intros e pdat [= <- <-]. right.
        split; [reflexivity|]. exists pre, a, post.
        split; [reflexivity|]. split; [exact Hpre|]. split; [exact Hna|].
        split; [apply length_map | discriminate].
  - split; [split|split].
    + intros [ret Hret]. discriminate.
    + intros [Hvalid _].
      destruct (configure_valid (F := F) (C := C) _ _ Hvalid) as (cfg & Hcfg' & _).
      rewrite Hcfg in Hcfg'. discriminate.
    + discriminate.
    + intros e' pdat [= <- <-]. left. split; [reflexivity|]. right.
      exact (configure_raises_ResponseError _ _ _ Hcfg).
Qed.

(** Samples are evaluated one by one: when no sample is a Python float
    whose square overflows, the responses of [adat1 ++ adat2] are those of
    [adat1] followed by those of [adat2]. *)
Theorem ComputeQSPResponse_app adat1 adat2 phiset signal_operator measurement :
  phiset <> [] ->
  valid_config signal_operator measurement ->
  Forall sample_ok adat1 ->
  Forall sample_ok adat2 ->
  exists pdat1 pdat2 model,
    ComputeQSPResponse (C := C) adat1 phiset signal_operator measurement =
      Returned (Dataset adat1 pdat1 model phiset) /\
    ComputeQSPResponse (C := C) adat2 phiset signal_operator measurement =
      Returned (Dataset adat2 pdat2 model phiset) /\
    ComputeQSPResponse (C := C) (adat1 ++ adat2) phiset signal_operator measurement =
      Returned (Dataset (adat1 ++ adat2) (pdat1 ++ pdat2) model phiset).
Proof.
  intros Hne Hvalid Hok1 Hok2. destruct phiset as [|phi0 rest]; [contradiction|].
  destruct (configure_valid (F := F) (C := C) _ _ Hvalid) as (cfg & Hcfg & _).
  destruct (configure_sig_op _ _ _ Hcfg) as [Wf HWf].
  unfold ComputeQSPResponse. rewrite Hcfg. cbn [map].
  rewrite !(sample_loop_nonempty cfg Wf)
    by (apply sig_op_accepts; [exact HWf|]; try apply Forall_app; auto).
  cbn [app].
  eexists _, _, _. split; [reflexivity|]. split; [reflexivity|].
  rewrite map_app. reflexivity.
Qed.

(** With a single phase no signal factor enters the product: when no
    sample is a Python float whose square overflows, every sample gets the
    same response, [p^T @ qsp_op(phi) @ p]. *)
Theorem ComputeQSPResponse_single_phase adat (phi : F) signal_operator measurement :
  valid_config signal_operator measurement ->
  Forall sample_ok adat ->
  exists cfg,
    configure signal_operator measurement = Return cfg /\
    ComputeQSPResponse (C := C) adat [phi] signal_operator measurement =
      Returned (Dataset adat
                  (replicate (length adat) (response_value cfg (qsp_op cfg phi)))
                  (model cfg) [phi]).
Proof.
  intros Hvalid Hok.
  destruct (configure_valid (F := F) (C := C) _ _ Hvalid) as (cfg & Hcfg & _).
  destruct (configure_sig_op _ _ _ Hcfg) as [Wf HWf].
  exists cfg. split; [exact Hcfg|].
  unfold ComputeQSPResponse. rewrite Hcfg. cbn [map].
  rewrite (sample_loop_nonempty cfg Wf) by (apply sig_op_accepts; assumption).
  cbn [app foldl].
  rewrite (const_fmap _ adat (response_value cfg (qsp_op cfg phi)))
    by reflexivity.
  reflexivity.
Qed.

End Facts.

Lemma ComputeQSPResponse_returns_iff_witness :
  ComputeQSPResponse (C := R * R) [] [0%R] "Wz" (Some "x") =
    Returned (Dataset [] [] ("Wz", "x") [0%R]) /\
  default_measurement "Wz" (Some "x") = Some "x".
Proof.
  split; [reflexivity|].
  exact (proj2 (proj2 (proj2 (proj2
           (proj1 (proj2 (ComputeQSPResponse_returns_iff (C := R * R)
                            [] [0%R] "Wz" (Some "x")))
              _ eq_refl))))).
Defined.

Lemma ComputeQSPResponse_app_witness :
  [0%R] <> [] /\ valid_config "Wx" None /\
  Forall sample_ok [PyFloat 1%R] /\ Forall sample_ok [NpFloat64 0%R] /\
  exists pdat : list (R * R),
    ComputeQSPResponse [PyFloat 1%R; NpFloat64 0%R] [0%R] "Wx" None =
      Returned (Dataset [PyFloat 1%R; NpFloat64 0%R] pdat ("Wx", "x") [0%R]) /\
    length pdat = 2%nat.
Proof.
  split; [discriminate|]. split; [exact Wx_default_valid|].
  split; [apply all_samples_ok_exact|]. split; [apply all_samples_ok_exact|].
  destruct (ComputeQSPResponse_app (C := R * R) [PyFloat 1%R] [NpFloat64 0%R]
              [0%R] "Wx" None)
    as (p1 & p2 & model & H1 & H2 & H12);
    [discriminate | exact Wx_default_valid | apply all_samples_ok_exact
     | apply all_samples_ok_exact |].
  change ([PyFloat 1%R] ++ [NpFloat64 0%R])
    with [PyFloat 1%R; NpFloat64 0%R] in H12.
  assert (Hl1 : length p1 = 1%nat).
  { unfold ComputeQSPResponse in H1.
    change (configure "Wx" None)
      with (Return (Config (F := R) (C := R * R) ("Wx", "x") sig_op_Wx qsp_op_Wx
                      p_state_x)) in H1.
    cbn [map] in H1.
    rewrite (sample_loop_nonempty _ (fun a => sig_array (value a) (fpow (value a) 2)))
      in H1 by (repeat constructor).
    injection H1 as <- _. reflexivity. }
  assert (Hl2 : length p2 = 1%nat).
  { unfold ComputeQSPResponse in H2.
    change (configure "Wx" None)
      with (Return (Config (F := R) (C := R * R) ("Wx", "x") sig_op_Wx qsp_op_Wx
                      p_state_x)) in H2.
    cbn [map] in H2.
    rewrite (sample_loop_nonempty _ (fun a => sig_array (value a) (fpow (value a) 2)))
      in H2 by (repeat constructor).
    injection H2 as <- _. reflexivity. }
  assert (Hm : model = ("Wx", "x")).
  { unfold ComputeQSPResponse in H1.
    change (configure "Wx" None)
      with (Return (Config (F := R) (C := R * R) ("Wx", "x") sig_op_Wx qsp_op_Wx
                      p_state_x)) in H1.
    cbn [map] in H1.
    rewrite (sample_loop_nonempty _ (fun a => sig_array (value a) (fpow (value a) 2)))
      in H1 by (repeat constructor).
    injection H1 as _ <-. reflexivity. }
  subst model.
  exists (p1 ++ p2). split; [exact H12|].
  rewrite length_app, Hl1, Hl2. reflexivity.
Defined.

Lemma ComputeQSPResponse_single_phase_witness :
  valid_config "Wx" None /\
  Forall sample_ok [PyFloat 1%R; NpFloat64 0%R] /\
  exists v : R * R,
    ComputeQSPResponse [PyFloat 1%R; NpFloat64 0%R] [0%R] "Wx" None =
      Returned (Dataset [PyFloat 1%R; NpFloat64 0%R] [v; v] ("Wx", "x") [0%R]).
Proof.
  split; [exact Wx_default_valid|]. split; [apply all_samples_ok_exact|].
  destruct (ComputeQSPResponse_single_phase (C := R * R)
              [PyFloat 1%R; NpFloat64 0%R] 0%R "Wx" None
              Wx_default_valid (all_samples_ok_exact _)) as (cfg & Hcfg & Hret).
  injection Hcfg as <-.
  eexists. exact Hret.
Defined.

End ResponseMore.

(** ** ComputeQSPResponse in exact arithmetic

    The engine read over the reals ([RealModel]): what the arithmetic of
    the operators implies when rounding is left out. The reading is that
    of numpy for samples in [-1, 1], where [1 - a**2] is not negative. *)

Module ResponseReal.

Import Response ResponseFacts RealModel.

Open Scope R_scope.

Implicit Types (A B M U W : mat2 (R * R)) (a : scalar R) (x phi : R).

(** Two complex 2x2 arrays are equal when their eight real components
    are. *)
Ltac mat_ring :=
  unfold matmul, dagger, cconj, mat_one, promote; cbn;
  f_equal; (apply pair_equal_spec; split); try ring.

Lemma matmul_assoc A B M : matmul (matmul A B) M = matmul A (matmul B M).
Proof.
  destruct A as [[? ?] [? ?] [? ?] [? ?]], B as [[? ?] [? ?] [? ?] [? ?]],
    M as [[? ?] [? ?] [? ?] [? ?]].
  mat_ring.
Qed.

Lemma matmul_one_l M : matmul mat_one M = M.
Proof. destruct M as [[? ?] [? ?] [? ?] [? ?]]. mat_ring. Qed.

Lemma matmul_one_r M : matmul M mat_one = M.
Proof. destruct M as [[? ?] [? ?] [? ?] [? ?]]. mat_ring. Qed.

Lemma dagger_matmul A B : dagger (matmul A B) = matmul (dagger B) (dagger A).
Proof.
  destruct A as [[? ?] [? ?] [? ?] [? ?]], B as [[? ?] [? ?] [? ?] [? ?]].
  mat_ring.
Qed.

Lemma unitary_matmul A B : unitary A -> unitary B -> unitary (matmul A B).
Proof.
  unfold unitary. intros HA HB.
  rewrite dagger_matmul, matmul_assoc, <- (matmul_assoc B), HB, matmul_one_l.
  exact HA.
Qed.

(** *** The operators, entry by entry *)

Lemma qsp_op_Wx_entries phi :
  qsp_op_Wx phi = Mat2 (cos phi, sin phi) (0, 0) (0, 0) (cos phi, - sin phi).
Proof.
  unfold qsp_op_Wx. cbn.
  replace (0 * phi - 1 * 0) with 0 by ring.
  replace (0 * 0 + 1 * phi) with phi by ring.
  replace (- 0 * phi - - (1) * 0) with 0 by ring.
  replace (- 0 * 0 + - (1) * phi) with (- phi) by ring.
  rewrite exp_0, cos_neg, sin_neg.
  f_equal; apply pair_equal_spec; split; ring.
Qed.

(** In exact arithmetic no square overflows: [sig_op] returns on either
    kind of float. *)
Lemma sig_op_Wx_exact a :
  sig_op_Wx a = Return (sig_array (value a) (fpow (value a) 2)).
Proof. destruct a; reflexivity. Qed.

Lemma sig_op_Wz_exact a :
  sig_op_Wz a =
    Return (matmul (matmul (promote H) (sig_array (value a) (fpow (value a) 2)))
              (promote H)).
Proof. destruct a; reflexivity. Qed.

Lemma sig_array_entries x :
  let s := R_sqrt.sqrt (1 - x * x) in
  sig_array x (fpow x 2) = Mat2 (x, 0) (0, s) (0, s) (x, 0).
Proof.
  unfold sig_array. cbn.
  replace (x ^ Pos.to_nat 2) with (x * x)
    by (change (Pos.to_nat 2) with 2%nat; ring).
  f_equal; apply pair_equal_spec; split; ring.
Qed.

Lemma unitary_qsp_op_Wx phi : unitary (qsp_op_Wx phi).
Proof.
  rewrite qsp_op_Wx_entries. unfold unitary.
  pose proof (sin2_cos2 phi) as Hsc. unfold Rsqr in Hsc.
  unfold matmul, dagger, cconj, mat_one. cbn.
  f_equal; apply pair_equal_spec; split; try ring; lra.
Qed.

Lemma unitary_sig_array x : -1 <= x <= 1 -> unitary (sig_array x (fpow x 2)).
Proof.
  intros Ha. rewrite sig_array_entries. cbv zeta. unfold unitary.
  assert (Hs : R_sqrt.sqrt (1 - x * x) * R_sqrt.sqrt (1 - x * x) = 1 - x * x)
    by (apply sqrt_sqrt; nra).
  set (s := R_sqrt.sqrt (1 - x * x)) in *.
  unfold matmul, dagger, cconj, mat_one. cbn.
  f_equal; apply pair_equal_spec; split; try ring; lra.
Qed.

(** The array [H] of line 46, promoted: real, symmetric, and its own
    inverse. *)
Lemma H_entries :
  let s := 1 / R_sqrt.sqrt 2 in
  promote H = Mat2 (s, 0) (s, 0) (s, 0) (- s, 0).
Proof.
  cbv zeta. unfold promote, H. cbn.
  f_equal; apply pair_equal_spec; split; try reflexivity.
  unfold Rdiv. ring.
Qed.

Lemma H_involutive : matmul (promote H) (promote H) = mat_one.
Proof.
  rewrite H_entries. cbv zeta.
  pose proof Examples.inv_sqrt2_sq as Hs. set (s := 1 / R_sqrt.sqrt 2) in *.
  unfold matmul, mat_one. cbn.
  f_equal; apply pair_equal_spec; split; try ring; lra.
Qed.

Lemma H_self_adjoint : dagger (promote H) = promote H.
Proof.
  rewrite H_entries. cbv zeta. unfold dagger, cconj. cbn.
  f_equal; apply pair_equal_spec; split; ring.
Qed.

Lemma unitary_H : unitary (promote H).
Proof. unfold unitary. rewrite H_self_adjoint. apply H_involutive. Qed.

(** Conjugation by [H] goes through products. *)
Lemma H_conjugation_matmul A B :
  matmul (matmul (matmul (promote H) A) (promote H))
         (matmul (matmul (promote H) B) (promote H)) =
  matmul (matmul (promote H) (matmul A B)) (promote H).
Proof.
  rewrite !matmul_assoc.
  rewrite <- (matmul_assoc (promote H) (promote H)), H_involutive, matmul_one_l.
  reflexivity.
Qed.

Lemma unitary_H_conjugate M :
  unitary M -> unitary (matmul (matmul (promote H) M) (promote H)).
Proof.
  intros HM. apply unitary_matmul; [apply unitary_matmul|];
    (exact unitary_H || exact HM).
Qed.

(** *** The product U *)

Lemma unitary_foldl W (Ps : list (mat2 (R * R))) :
  unitary W -> Forall unitary Ps ->
  forall U, unitary U ->
    unitary (foldl (fun U pm => matmul (matmul U W) pm) U Ps).
Proof.
  intros HW HPs. induction HPs as [|P Ps HP _ IH]; intros U HU; [exact HU|].
  cbn [foldl]. apply IH. apply unitary_matmul; [apply unitary_matmul|]; assumption.
Qed.

Lemma step_H_conjugate W phi U :
  matmul (matmul (matmul (matmul (promote H) U) (promote H))
            (matmul (matmul (promote H) W) (promote H)))
         (qsp_op_Wz phi) =
  matmul (matmul (promote H) (matmul (matmul U W) (qsp_op_Wx phi)))
         (promote H).
Proof.
  unfold qsp_op_Wz. rewrite !H_conjugation_matmul. reflexivity.
Qed.

Lemma foldl_H_conjugate W (rest : list R) : forall U,
  foldl (fun U pm => matmul (matmul U (matmul (matmul (promote H) W) (promote H))) pm)
    (matmul (matmul (promote H) U) (promote H)) (map qsp_op_Wz rest) =
  matmul (matmul (promote H)
            (foldl (fun U pm => matmul (matmul U W) pm) U
               (map qsp_op_Wx rest)))
         (promote H).
Proof.
  induction rest as [|phi rest IH]; intros U; [reflexivity|].
  cbn [map foldl]. rewrite step_H_conjugate. apply IH.
Qed.

(** The loop of lines 74-79 in exact arithmetic, under either signal
    operator. *)
Lemma sample_loop_Wx (model : string * string) (p : col2 R) (P0 : mat2 (R * R))
    (Ps : list (mat2 (R * R))) (adat : list (scalar R)) :
  let cfg := Config model sig_op_Wx qsp_op_Wx p in
  sample_loop cfg (P0 :: Ps) adat [] =
    (map (fun a =>
            response_value cfg
              (foldl (fun U pm =>
                        matmul (matmul U (sig_array (value a) (fpow (value a) 2))) pm)
                 P0 Ps))
       adat,
     None).
Proof.
  cbv zeta.
  rewrite (sample_loop_nonempty _ (fun a => sig_array (value a) (fpow (value a) 2)))
    by (apply Forall_forall; intros a _; apply sig_op_Wx_exact).
  reflexivity.
Qed.

Lemma sample_loop_Wz (model : string * string) (p : col2 R) (P0 : mat2 (R * R))
    (Ps : list (mat2 (R * R))) (adat : list (scalar R)) :
  let cfg := Config model sig_op_Wz qsp_op_Wz p in
  sample_loop cfg (P0 :: Ps) adat [] =
    (map (fun a =>
            response_value cfg
              (foldl (fun U pm =>
                        matmul (matmul U
                                  (matmul (matmul (promote H)
                                             (sig_array (value a) (fpow (value a) 2)))
                                     (promote H))) pm)
                 P0 Ps))
       adat,
     None).
Proof.
  cbv zeta.
  rewrite (sample_loop_nonempty _
             (fun a => matmul (matmul (promote H)
                                 (sig_array (value a) (fpow (value a) 2)))
                         (promote H)))
    by (apply Forall_forall; intros a _; apply sig_op_Wz_exact).
  reflexivity.
Qed.

(** Measuring the conjugated product in one basis is measuring the
    product in the other. *)
Lemma measure_H_conjugate U :
  row_col (row_matmul (transpose p_state_z)
             (matmul (matmul (promote H) U) (promote H))) p_state_z =
  row_col (row_matmul (transpose p_state_x) U) p_state_x /\
  row_col (row_matmul (transpose p_state_x)
             (matmul (matmul (promote H) U) (promote H))) p_state_x =
  row_col (row_matmul (transpose p_state_z) U) p_state_z.
Proof.
  rewrite H_entries. cbv zeta.
  pose proof Examples.inv_sqrt2_sq as Hs.
  destruct U as [[? ?] [? ?] [? ?] [? ?]].
  unfold row_col, row_matmul, transpose, p_state_x, p_state_z, matmul. cbn.
  set (s := 1 / R_sqrt.sqrt 2) in *.
  assert (Hs2 : 2 * (s * s) = 1) by lra. clearbody s. clear Hs.
  split; apply pair_equal_spec; split; nsatz.
Qed.

(** In exact arithmetic, for a sample in [-1, 1], of either kind of
    float, and at least one phase, the product [U] of lines 75-78 is a
    unitary matrix, under Wx and under Wz. *)
Theorem qsp_unitary_is_unitary (signal_operator : string)
    (measurement : option string) (phi0 : R) (rest : list R) a :
  valid_config signal_operator measurement ->
  -1 <= value a <= 1 ->
  exists cfg U,
    configure (F := R) (C := R * R) signal_operator measurement = Return cfg /\
    qsp_unitary cfg (map (qsp_op cfg) (phi0 :: rest)) a = Return U /\
    unitary U.
Proof.
  intros Hvalid Ha.
  assert (Hops : exists cfg W,
            configure (F := R) (C := R * R) signal_operator measurement = Return cfg /\
            sig_op cfg a = Return W /\
            unitary W /\ forall phi, unitary (qsp_op cfg phi)).
  { destruct Hvalid as [[-> | ->] [-> | [-> | ->]]];
      eexists; eexists; (split; [reflexivity|]); cbn [sig_op qsp_op];
      (split; [first [apply sig_op_Wx_exact | apply sig_op_Wz_exact]|]); split;
      try (apply unitary_sig_array; exact Ha);
      try (intros phi; apply unitary_qsp_op_Wx);
      try (apply unitary_H_conjugate, unitary_sig_array; exact Ha);
      intros phi; apply unitary_H_conjugate, unitary_qsp_op_Wx. }
  destruct Hops as (cfg & W & Hcfg & HWa & HW & HP).
  exists cfg. eexists. split; [exact Hcfg|]. split.
  - unfold qsp_unitary. rewrite HWa. cbn [map mbind outcome_bind].
    rewrite (getitem_nonneg (qsp_op cfg phi0 :: _) 0 (qsp_op cfg phi0))
      by (lia || reflexivity).
    reflexivity.
  - cbn [drop]. apply unitary_foldl; [exact HW | | apply HP].
    apply Forall_fmap, Forall_forall. intros phi _. apply HP.
Qed.

(** In exact arithmetic, on samples in [-1, 1], of either kind of float,
    the two conventions agree once the measurement basis is swapped with
    them: Wz measured in z responds as Wx measured in x, and Wz measured in
    x as Wx measured in z. *)
Theorem Wz_responds_as_Wx (adat : list (scalar R)) (phiset : list R) :
  phiset <> [] ->
  Forall (fun a => -1 <= value a <= 1) adat ->
  exists pdat_native pdat_cross : list (R * R),
    ComputeQSPResponse adat phiset "Wx" None =
      Returned (Dataset adat pdat_native ("Wx", "x") phiset) /\
    ComputeQSPResponse adat phiset "Wz" None =
      Returned (Dataset adat pdat_native ("Wz", "z") phiset) /\
    ComputeQSPResponse adat phiset "Wx" (Some "z") =
      Returned (Dataset adat pdat_cross ("Wx", "z") phiset) /\
    ComputeQSPResponse adat phiset "Wz" (Some "x") =
      Returned (Dataset adat pdat_cross ("Wz", "x") phiset).
Proof.
  intros Hne _. destruct phiset as [|phi0 rest]; [contradiction|].
  unfold ComputeQSPResponse.
  change (configure "Wx" None)
    with (Return (Config (F := R) (C := R * R) ("Wx", "x") sig_op_Wx qsp_op_Wx p_state_x)).
  change (configure "Wz" None)
    with (Return (Config (F := R) (C := R * R) ("Wz", "z") sig_op_Wz qsp_op_Wz p_state_z)).
  change (configure "Wx" (Some "z"))
    with (Return (Config (F := R) (C := R * R) ("Wx", "z") sig_op_Wx qsp_op_Wx p_state_z)).
  change (configure "Wz" (Some "x"))
    with (Return (Config (F := R) (C := R * R) ("Wz", "x") sig_op_Wz qsp_op_Wz p_state_x)).
  cbn [map qsp_op]. rewrite !sample_loop_Wx, !sample_loop_Wz. cbn [model].
  eexists _, _. split; [reflexivity|]. split; [|split; [reflexivity|]].
  - do 2 f_equal. apply map_ext. intros a.
    unfold response_value. cbn [p_state]. unfold qsp_op_Wz at 1.
    rewrite foldl_H_conjugate. apply measure_H_conjugate.
  - do 2 f_equal. apply map_ext. intros a.
    unfold response_value. cbn [p_state]. unfold qsp_op_Wz at 1.
    rewrite foldl_H_conjugate. apply measure_H_conjugate.
Qed.

(** In exact arithmetic, a single phase [phi] responds [cos(phi)] at every
    sample when measured in x under Wx, and [exp(i phi)] when measured
    in z. *)
Theorem single_phase_response (adat : list (scalar R)) phi :
  ComputeQSPResponse adat [phi] "Wx" None =
    Returned (Dataset adat (replicate (length adat) (cos phi, 0))
                ("Wx", "x") [phi]) /\
  ComputeQSPResponse adat [phi] "Wx" (Some "z") =
    Returned (Dataset adat (replicate (length adat) (cos phi, sin phi))
                ("Wx", "z") [phi]).
Proof.
  unfold ComputeQSPResponse.
  change (configure "Wx" None)
    with (Return (Config (F := R) (C := R * R) ("Wx", "x") sig_op_Wx qsp_op_Wx p_state_x)).
  change (configure "Wx" (Some "z"))
    with (Return (Config (F := R) (C := R * R) ("Wx", "z") sig_op_Wx qsp_op_Wx p_state_z)).
  cbn [map qsp_op]. rewrite !sample_loop_Wx. cbn [foldl model].
  rewrite qsp_op_Wx_entries.
  pose proof Examples.inv_sqrt2_sq as Hs.
  split; do 2 f_equal.
  - apply const_fmap. intros i a _.
    unfold response_value, row_col, row_matmul, transpose, p_state_x. cbn.
    set (s := 1 / R_sqrt.sqrt 2) in *.
    assert (Hs2 : 2 * (s * s) = 1) by lra. clearbody s. clear Hs.
    generalize (cos phi) (sin phi). intros c sn.
    apply pair_equal_spec. split; nsatz.
  - apply const_fmap. intros i a _.
    unfold response_value, row_col, row_matmul, transpose, p_state_z. cbn.
    apply pair_equal_spec. split; ring.
Qed.

Lemma Wz_default_valid : valid_config "Wz" None.
Proof. split; [right | left]; reflexivity. Qed.

Lemma qsp_unitary_is_unitary_witness :
  valid_config "Wz" None /\ -1 <= value (PyFloat 0) <= 1 /\
  exists cfg U,
    configure (F := R) (C := R * R) "Wz" None = Return cfg /\
    qsp_unitary cfg (map (qsp_op cfg) [0; 1]) (PyFloat 0) = Return U /\
    unitary U.
Proof.
  assert (H0 : -1 <= value (PyFloat 0) <= 1) by (cbn; lra).
  split; [exact Wz_default_valid|]. split; [exact H0|].
  exact (qsp_unitary_is_unitary "Wz" None 0 [1] (PyFloat 0) Wz_default_valid H0).
Defined.

Lemma Wz_responds_as_Wx_witness :
  [0; 1] <> [] /\ Forall (fun a => -1 <= value a <= 1) [PyFloat 0] /\
  exists pdat : list (R * R),
    ComputeQSPResponse [PyFloat 0] [0; 1] "Wx" None =
      Returned (Dataset [PyFloat 0] pdat ("Wx", "x") [0; 1]) /\
    ComputeQSPResponse [PyFloat 0] [0; 1] "Wz" None =
      Returned (Dataset [PyFloat 0] pdat ("Wz", "z") [0; 1]).
Proof.
  assert (Hne : [0; 1] <> []) by discriminate.
  assert (Hin : Forall (fun a => -1 <= value a <= 1) [PyFloat 0])
    by (repeat constructor; cbn; lra).
  split; [exact Hne|]. split; [exact Hin|].
  destruct (Wz_responds_as_Wx [PyFloat 0] [0; 1] Hne Hin) as (pn & _ & Hx & Hz & _).
  exists pn. split; [exact Hx | exact Hz].
Defined.

End ResponseReal.

(** ** FPSearch in exact arithmetic: the derived gamma *)

Module FPSearchReal.

Import Phases.FPSearch RealModel.

Open Scope R_scope.

Lemma cosh_ge_1 (y : R) : 1 <= cosh y.
Proof.
  unfold cosh. rewrite exp_Ropp.
  pose proof (exp_pos y) as Hpos.
  pose proof (Rinv_r (exp y)) as Hinv.
  pose proof (Rinv_0_lt_compat _ Hpos) as Hipos.
  set (e := exp y) in *. set (z := / e) in *.
  assert (He : e * z = 1) by (apply Hinv; lra).
  clearbody z. clear Hinv. clearbody e.
  destruct (Rle_lt_dec 2 (e + z)) as [Hge | Hlt]; [lra|].
  pose proof (Rle_0_sqr (e - z)) as Hsq. unfold Rsqr in Hsq.
  assert (Hsum : 0 < (2 - (e + z)) * (2 + (e + z)))
    by (apply Rmult_lt_0_compat; lra).
  nra.
Qed.

(** In exact arithmetic, for an error bound [0 < delta <= 1] of either kind
    of float (the default 0.1 is one), the [gamma] that line 68 derives lies
    in (0, 1], so line 69 takes the square root of a number that is not
    negative. *)
Theorem derived_gamma_range (L : Z) (delta : option (scalar R)) :
  0 < value (default (PyFloat 0.1) delta) <= 1 ->
  exists g,
    gamma_of L delta None = Return (NpFloat64 g) /\
    sg_of (NpFloat64 g) = Return (np_sqrt (fsub (f_of_Z 1) (fpow g 2))) /\
    0 < g <= 1 /\
    0 <= fsub (f_of_Z 1) (fpow g 2).
Proof.
  intros Hd. unfold gamma_of, py_recip.
  change f_0_1 with 0.1.
  assert (Hr : recip_raises (default (PyFloat 0.1) delta) = false).
  { unfold recip_raises. destruct (default (PyFloat 0.1) delta) as [x|x];
      [|reflexivity].
    cbn in Hd |- *. apply bool_decide_eq_false_2. lra. }
  rewrite Hr. cbn [mbind outcome_bind].
  eexists. split; [reflexivity|]. split; [reflexivity|].
  cbn [fdiv fmul f_of_Z np_cosh fsub fpow R_float64].
  set (y := cosh _).
  assert (Hy : 1 <= y) by apply cosh_ge_1.
  assert (Hg : 0 < 1 / y <= 1).
  { split.
    - apply Rdiv_lt_0_compat; lra.
    - apply (Rmult_le_reg_r y); [lra|]. unfold Rdiv.
      rewrite Rmult_assoc, Rinv_l by lra. lra. }
  split; [exact Hg|].
  change (powerRZ (1 / y) 2) with ((1 / y) ^ 2). nra.
Qed.

Lemma derived_gamma_range_witness :
  0 < value (default (PyFloat 0.1) None) <= 1 /\
  exists g, gamma_of (F := R) 5 None None = Return (NpFloat64 g) /\ 0 < g <= 1.
Proof.
  assert (Hd : 0 < value (default (PyFloat 0.1) None) <= 1) by (cbn; lra).
  split; [exact Hd|].
  destruct (derived_gamma_range 5 None Hd) as (g & Hg & _ & Hr & _).
  exists g. split; [exact Hg | exact Hr].
Defined.

End FPSearchReal.
